(** * newspaper/mthreading.py: Worker, ThreadPool and NewsPool

    A shallow embedding of the threading module of [newspaper].

    - [Queue] is Python's [queue.Queue], restricted to the calls the module
      makes: [Queue(maxsize)], [put(item)], [get(timeout=...)],
      [task_done()] and [join()].
    - [Worker] is the loop of [Worker.run], cut at its three blocking or
      effectful points (the [get], the call of the job, the [task_done]).
    - [ThreadPool] is the pool: one shared queue, the worker threads started
      by the constructor, and a history of what happened so far.  Threads are
      interleaved by a labelled step function, one label per atomic action.
    - [NewsPool] is the orchestrator, written in a small state-and-exception
      monad that follows the statements of the source one by one.

    Wall-clock time is abstracted: whether the timeout window of a [get] has
    elapsed is a boolean supplied with the step. *)

From stdpp Require Import base tactics option list numbers strings.

Open Scope Z_scope.

(** ** Python exceptions and call outcomes *)

(** The exception classes the module can meet.  [JobError] stands for any
    exception class derived from [Exception] that a job raises. *)
Inductive exn :=
  | TypeError
  | AttributeError
  | RuntimeError
  | ValueError
  | JobError (name : string).

(** How the call of [func] on [args] and [kargs] (line 38) ends.  Python separates
    [Exception] (caught by [except Exception]) from the other subclasses of
    [BaseException] ([SystemExit], [KeyboardInterrupt], [GeneratorExit]),
    which [except Exception] lets through. *)
Inductive outcome :=
  | Returned
  | RaisedException (e : exn)
  | RaisedBaseException (name : string).

(** The outcome of a call that returns ([None]) or raises an exception the
    handler of line 39 catches. *)
Definition swallowed (r : option exn) : outcome :=
  match r with
  | None => Returned
  | Some e => RaisedException e
  end.

(** ** queue.Queue *)

Module Queue.
Section Queue.
Context {A : Type}.

(** [items] is the deque, oldest first; [unfinished_tasks] is the counter
    behind [task_done] and [join]. *)
Record t := mk {
  maxsize : Z;
  items : list A;
  unfinished_tasks : nat
}.

(** [queue.Queue(maxsize)] *)
Definition new (maxsize : Z) : t :=
  {| maxsize := maxsize; items := []; unfinished_tasks := 0 |}.

Definition qsize (q : t) : nat := length (items q).

(** The test of [put]: [if self.maxsize > 0: while qsize() >= maxsize: wait]. *)
Definition full (q : t) : bool :=
  (0 <? maxsize q) && (maxsize q <=? Z.of_nat (qsize q)).

(** [put(item)] with the default [block=True, timeout=None]: [None] is the
    caller waiting on [not_full]; nothing is raised and nothing is dropped. *)
Definition put (item : A) (q : t) : option t :=
  if full q then None
  else Some {| maxsize := maxsize q;
               items := items q ++ [item];
               unfinished_tasks := S (unfinished_tasks q) |}.

Inductive get_result :=
  | Item (item : A) (q : t)
  | Empty                     (* raise queue.Empty *)
  | Waiting                   (* still inside not_empty.wait(remaining) *)
  | BadTimeout.               (* raise ValueError: negative timeout *)

(** [get(timeout=timeout)] with the default [block=True]; [elapsed] says
    whether the window has run out when the queue is looked at. *)
Definition get (timeout : Z) (elapsed : bool) (q : t) : get_result :=
  if timeout <? 0 then BadTimeout
  else match items q with
       | item :: rest =>
           Item item {| maxsize := maxsize q;
                        items := rest;
                        unfinished_tasks := unfinished_tasks q |}
       | [] => if elapsed then Empty else Waiting
       end.

(** [task_done()]: [None] is the [ValueError] of one call too many. *)
Definition task_done (q : t) : option t :=
  match unfinished_tasks q with
  | O => None
  | S n => Some {| maxsize := maxsize q;
                   items := items q;
                   unfinished_tasks := n |}
  end.

(** [join()]: [while self.unfinished_tasks: wait].  [true] when it returns. *)
Definition join (q : t) : bool :=
  match unfinished_tasks q with
  | O => true
  | S _ => false
  end.
End Queue.
Global Arguments t : clear implicits.
Global Arguments get_result : clear implicits.
End Queue.

(** ** Worker *)

Module Worker.
Section Worker.
Context {Task : Type}.

(** Where the thread stands in [run]. *)
Inductive pc :=
  | Running                   (* line 33, inside tasks.get *)
  | Executing (job : Task)    (* line 38, inside func(...) *)
  | AfterCall (job : Task)    (* line 42, about to call task_done *)
  | Stopped                   (* line 36, left the loop through break *)
  | Crashed (e : option exn). (* the thread died on an uncaught exception *)

Record t := mk {
  timeout : Z;
  at_ : pc
}.

(** [Worker(tasks, timeout_seconds)]: the constructor starts the thread. *)
Definition new (timeout_seconds : Z) : t :=
  {| timeout := timeout_seconds; at_ := Running |}.

Definition goto (w : t) (l : pc) : t :=
  {| timeout := timeout w; at_ := l |}.

(** What an observer of the pool can see a thread do. *)
Inductive obs :=
  | Submitted (job : Task)              (* add_task put the job *)
  | Started (job : Task)                (* a worker dequeued the job *)
  | Finished (job : Task) (o : outcome) (* the call of the job ended *)
  | PrintExc (e : exn)                  (* traceback.print_exc() *)
  | Completed (job : Task).             (* task_done was called for it *)

Inductive event :=
  | Get (elapsed : bool)
  | Call (o : outcome)
  | TaskDone.

(** One atomic action of [run] on the shared queue [q].  [PrintExc] is the
    call of [traceback.print_exc()] on line 40; what the interpreter itself
    writes when a thread dies on an uncaught exception is not recorded. *)
Definition run_step (ev : event) (q : Queue.t Task) (w : t)
  : option (Queue.t Task * t * list obs) :=
  match at_ w, ev with
  | Running, Get elapsed =>
      match Queue.get (timeout w) elapsed q with
      | Queue.Item job q' => Some (q', goto w (Executing job), [Started job])
      | Queue.Empty => Some (q, goto w Stopped, [])
      | Queue.Waiting => None
      | Queue.BadTimeout => Some (q, goto w (Crashed (Some ValueError)), [])
      end
  | Executing job, Call o =>
      match o with
      | Returned =>
          Some (q, goto w (AfterCall job), [Finished job o])
      | RaisedException e =>
          Some (q, goto w (AfterCall job), [Finished job o; PrintExc e])
      | RaisedBaseException _ =>
          Some (q, goto w (Crashed None), [Finished job o])
      end
  | AfterCall job, TaskDone =>
      match Queue.task_done q with
      | Some q' => Some (q', goto w Running, [Completed job])
      | None => Some (q, goto w (Crashed (Some ValueError)), [])
      end
  | _, _ => None
  end.

(** The job a thread holds: dequeued, [task_done] not yet called. *)
Definition holding (w : t) : list Task :=
  match at_ w with
  | Executing job | AfterCall job => [job]
  | _ => []
  end.

(** The job a thread is in the middle of calling. *)
Definition calling (w : t) : list Task :=
  match at_ w with
  | Executing job => [job]
  | _ => []
  end.

(** The thread has ended: [run] returned or an exception ended it. *)
Definition terminal (w : t) : bool :=
  match at_ w with
  | Stopped | Crashed _ => true
  | Running | Executing _ | AfterCall _ => false
  end.
End Worker.
Global Arguments t : clear implicits.
Global Arguments pc : clear implicits.
Global Arguments obs : clear implicits.
End Worker.

(** ** ThreadPool *)

Module ThreadPool.
Section ThreadPool.
Context {Task : Type}.

(** [tasks] is the one queue every worker shares; [workers] are the threads
    the constructor started (the source does not keep them, they stay alive
    on their own); [history] records the observable actions in order and is
    not read by the code. *)
Record t := mk {
  tasks : Queue.t Task;
  workers : list (Worker.t Task);
  history : list (Worker.obs Task)
}.

(** [ThreadPool(num_threads, timeout_seconds)]; [range(n)] is empty for
    [n <= 0]. *)
Definition new (num_threads timeout_seconds : Z) : t :=
  {| tasks := Queue.new num_threads;
     workers := replicate (Z.to_nat num_threads) (Worker.new timeout_seconds);
     history := [] |}.

(** [add_task]: the job is the triple of [func], [args] and [kargs];
    [None] while [put] is blocked. *)
Definition add_task (job : Task) (p : t) : option t :=
  q ← Queue.put job (tasks p);
  Some {| tasks := q;
          workers := workers p;
          history := history p ++ [Worker.Submitted job] |}.

(** [wait_completion()]: [true] when [tasks.join()] returns. *)
Definition wait_completion (p : t) : bool := Queue.join (tasks p).

Inductive label :=
  | AddTask (job : Task)                  (* the thread that owns the pool *)
  | Work (i : nat) (ev : Worker.event).   (* worker thread number i *)

(** One atomic action of one thread; [None] when it cannot happen now. *)
Definition step (l : label) (p : t) : option t :=
  match l with
  | AddTask job => add_task job p
  | Work i ev =>
      w ← workers p !! i;
      '(q, w', os) ← Worker.run_step ev (tasks p) w;
      Some {| tasks := q;
              workers := <[i := w']> (workers p);
              history := history p ++ os |}
  end.

(** A schedule, run from left to right. *)
Fixpoint run (ls : list label) (p : t) : option t :=
  match ls with
  | [] => Some p
  | l :: ls' => p' ← step l p; run ls' p'
  end.

(** Projections of the history. *)
Definition submitted (p : t) : list Task :=
  omap (λ o, match o with Worker.Submitted j => Some j | _ => None end)
       (history p).

Definition started (p : t) : list Task :=
  omap (λ o, match o with Worker.Started j => Some j | _ => None end)
       (history p).

Definition finished (p : t) : list (Task * outcome) :=
  omap (λ o, match o with Worker.Finished j r => Some (j, r) | _ => None end)
       (history p).

Definition printed (p : t) : list exn :=
  omap (λ o, match o with Worker.PrintExc e => Some e | _ => None end)
       (history p).

(** Jobs whose call let a [BaseException] through: their worker died
    before line 42. *)
Definition lost (p : t) : list Task :=
  omap (λ o, match o with
             | Worker.Finished j (RaisedBaseException _) => Some j
             | _ => None
             end)
       (history p).

Definition pending (p : t) : list Task := Queue.items (tasks p).

Definition in_flight (p : t) : list Task := workers p ≫= Worker.holding.

Definition calling (p : t) : list Task := workers p ≫= Worker.calling.

(** Jobs for which [task_done] was called, in order. *)
Definition completed (p : t) : list Task :=
  omap (λ o, match o with Worker.Completed j => Some j | _ => None end)
       (history p).

(** The threads that have not ended. *)
Definition live (p : t) : list (Worker.t Task) :=
  workers p ≫= λ w, if Worker.terminal w then [] else [w].

(** The schedule in which worker [i] serves the given jobs one after the
    other: it dequeues, the call ends as [out] says, it calls [task_done]. *)
Definition serve (i : nat) (out : Task → outcome) (jobs : list Task)
  : list (nat * Worker.event) :=
  jobs ≫= λ j, [(i, Worker.Get false); (i, Worker.Call (out j));
                (i, Worker.TaskDone)].

Definition works_labels (evs : list (nat * Worker.event)) : list label :=
  (λ ie, Work ie.1 ie.2) <$> evs.

(** The jobs a schedule submits, and whether a label belongs to a worker. *)
Definition added (ls : list label) : list Task :=
  omap (λ l, match l with AddTask j => Some j | Work _ _ => None end) ls.

Definition is_work (l : label) : bool :=
  match l with
  | Work _ _ => true
  | AddTask _ => false
  end.

(** What every state of a pool satisfies (see [run_consistent]):
    - the queue hands jobs out in the order they were put;
    - a job handed out has finished its call or is being called;
    - the counter counts the jobs pending, held by a worker, or lost with a
      worker that died inside the call;
    - a bounded queue is never over its bound. *)
Record consistent (p : t) : Prop := {
  fifo : started p ++ pending p = submitted p;
  accounted : started p ≡ₚ (finished p).*1 ++ calling p;
  counted :
    Queue.unfinished_tasks (tasks p) =
    length (pending p ++ in_flight p ++ lost p);
  bounded :
    0 < Queue.maxsize (tasks p) →
    Z.of_nat (length (pending p)) ≤ Queue.maxsize (tasks p)
}.
End ThreadPool.
Global Arguments t : clear implicits.
Global Arguments label : clear implicits.
End ThreadPool.

(** ** NewsPool *)

Module NewsPool.

(** The items of a batch are objects; an object is its identity. *)
Inductive Source := SourceObj (id : nat).
Inductive Article := ArticleObj (id : nat).

(** The Python values the fields and arguments of [NewsPool] take where the
    source inspects them ([is None], [<=], [len], [for]). *)
Inductive pyval :=
  | PyNone
  | PyBool (b : bool)
  | PyInt (n : Z)
  | PyList (l : list Article).

(** [v <= n] for an [int] [n]: [bool] and [int] compare as integers, [None]
    and [list] have no ordering with [int]. *)
Definition py_le_int (v : pyval) (n : Z) : exn + pyval :=
  match v with
  | PyInt m => inr (PyBool (m <=? n))
  | PyBool b => inr (PyBool ((if b then 1 else 0) <=? n))
  | PyNone | PyList _ => inl TypeError
  end.

(** [len(v)] *)
Definition py_len (v : pyval) : exn + Z :=
  match v with
  | PyList l => inr (Z.of_nat (length l))
  | PyNone | PyBool _ | PyInt _ => inl TypeError
  end.

(** The elements [for x in v] visits. *)
Definition py_iter (v : pyval) : exn + list Article :=
  match v with
  | PyList l => inr l
  | PyNone | PyBool _ | PyInt _ => inl TypeError
  end.

(** Truth value of an [int], as the test of a conditional expression. *)
Definition py_truth (n : Z) : bool := negb (n =? 0).

(** The bound methods the orchestrator hands to the pool. *)
Inductive method :=
  | download_articles (paper : Source)
  | download (article : Article)
  | parse (article : Article).

(** A job as [add_task] stores it: the triple [(func, args, kargs)]. *)
Record Task := mkTask {
  func : method;
  args : list pyval;
  kargs : list (string * pyval)
}.

(** [pool.add_task(f)]: no positional and no keyword arguments. *)
Definition job (f : method) : Task :=
  {| func := f; args := []; kargs := [] |}.

(** Modelled from the spec: the class [Configuration] of
    [newspaper/configuration.py] is not part of this module; of it the module
    reads two integers, the idle timeout of the workers and the ceiling on the
    threads of an article batch. *)
Record Configuration := mkConfiguration {
  thread_timeout_seconds : Z;
  max_number_threads : Z
}.

(** The object; [stdout] is what [print] has written so far, kept next to
    the fields so that one state is threaded through. *)
Record t := mk {
  papers : list Source;
  articles : pyval;
  pool : option (ThreadPool.t Task);
  config : Configuration;
  stdout : list string
}.

Definition with_papers (v : list Source) (s : t) : t :=
  {| papers := v; articles := articles s; pool := pool s;
     config := config s; stdout := stdout s |}.

Definition with_articles (v : pyval) (s : t) : t :=
  {| papers := papers s; articles := v; pool := pool s;
     config := config s; stdout := stdout s |}.

Definition with_pool (v : option (ThreadPool.t Task)) (s : t) : t :=
  {| papers := papers s; articles := articles s; pool := v;
     config := config s; stdout := stdout s |}.

Definition with_stdout (v : list string) (s : t) : t :=
  {| papers := papers s; articles := articles s; pool := pool s;
     config := config s; stdout := v |}.

(** How a method call ends: it returns, it raises, or its thread is
    suspended inside a blocking call of the queue. *)
Inductive result (A : Type) :=
  | Returns (a : A) (s : t)
  | Raises (e : exn) (s : t)
  | Blocks (s : t).
Global Arguments Returns {A} a s.
Global Arguments Raises {A} e s.
Global Arguments Blocks {A} s.

Definition M (A : Type) : Type := t → result A.

#[global] Instance M_ret : MRet M := λ A a s, Returns a s.

#[global] Instance M_bind : MBind M := λ A B f c s,
  match c s with
  | Returns a s' => f a s'
  | Raises e s' => Raises e s'
  | Blocks s' => Blocks s'
  end.

Definition gets {A} (f : t → A) : M A := λ s, Returns (f s) s.
Definition modify (f : t → t) : M () := λ s, Returns () (f s).
Definition raise {A} (e : exn) : M A := λ s, Raises e s.
Definition block {A} : M A := λ s, Blocks s.

Definition lift {A} (r : exn + A) : M A :=
  match r with
  | inl e => raise e
  | inr a => mret a
  end.

(** [print(line)] *)
Definition print (line : string) : M () :=
  modify (λ s, with_stdout (stdout s ++ [line]) s).

(** [for x in l: body(x)] *)
Fixpoint for_each {A} (l : list A) (body : A → M ()) : M () :=
  match l with
  | [] => mret ()
  | x :: l' => body x ;; for_each l' body
  end.

(** [self.pool.add_task(f)]: attribute access on [None] raises
    [AttributeError]; a full queue suspends the caller. *)
Definition pool_add_task (f : method) : M () :=
  p ← gets pool;
  match p with
  | None => raise AttributeError
  | Some p =>
      match ThreadPool.add_task (job f) p with
      | Some p' => modify (with_pool (Some p'))
      | None => block
      end
  end.

(** [self.pool.wait_completion()] *)
Definition pool_wait_completion : M () :=
  p ← gets pool;
  match p with
  | None => raise AttributeError
  | Some p => if ThreadPool.wait_completion p then mret () else block
  end.

(** [NewsPool(config)]: [config or Configuration()]; the default object
    comes from the missing class and is passed in. *)
Definition new (config : option Configuration) (default : Configuration) : t :=
  {| papers := []; articles := PyList []; pool := None;
     config := from_option id default config; stdout := [] |}.

Definition misuse_message : string :=
  "Call set_papers(..) or set_articles(...) with a list of source objects before .join(..)".

(** [join()], lines 89 to 101.  [handled] is the exception being handled
    at the place of the call, when [join] is called inside an [except]
    block: the bare [raise] of line 97 raises it again, and raises
    [RuntimeError] when no exception is being handled. *)
Definition join_handling (handled : option exn) : M () :=
  p ← gets pool;
  a ← gets articles;
  match p, a with
  | None, PyNone => print misuse_message ;; raise (default RuntimeError handled)
  | _, _ => mret ()
  end ;;
  pool_wait_completion ;;
  modify (with_papers []) ;;
  modify (with_articles (PyList [])) ;;
  modify (with_pool None).

(** [join()] called outside any [except] block. *)
Definition join : M () := join_handling None.

(** [set_papers(paper_list, threads_per_source=1)], lines 103 to 110, in
    the run in which no worker thread takes a step before the call
    returns; [set_papers_interleaved] below is the call under any schedule
    of the workers. *)
Definition set_papers (paper_list : list Source) (threads_per_source : Z) : M () :=
  modify (with_papers paper_list) ;;
  ps ← gets papers;
  let num_threads := threads_per_source * Z.of_nat (length ps) in
  timeout ← gets (λ s, thread_timeout_seconds (config s));
  modify (with_pool (Some (ThreadPool.new num_threads timeout))) ;;
  ps ← gets papers;
  for_each ps (λ paper, pool_add_task (download_articles paper)).

(** [set_articles(article_list)], lines 112 to 120.  On line 115 the
    comparison with the ceiling is the argument of [len]. *)
Definition set_articles (article_list : pyval) : M () :=
  modify (with_articles article_list) ;;
  timeout ← gets (λ s, thread_timeout_seconds (config s));
  a ← gets articles;
  ceiling ← gets (λ s, max_number_threads (config s));
  c ← lift (py_le_int a ceiling);
  n ← lift (py_len c);
  num_threads ← (if py_truth n then lift (py_len a) else mret ceiling);
  modify (with_pool (Some (ThreadPool.new num_threads timeout))) ;;
  a ← gets articles;
  l ← lift (py_iter a);
  for_each l (λ article,
    pool_add_task (download article) ;;
    pool_add_task (parse article)).

(** A worker thread of the active pool takes a step. *)
Definition work (i : nat) (ev : Worker.event) (s : t) : option t :=
  p ← pool s;
  p' ← ThreadPool.step (ThreadPool.Work i ev) p;
  Some (with_pool (Some p') s).

(** Worker steps of the active pool, one after the other. *)
Fixpoint works (evs : list (nat * Worker.event)) (s : t) : option t :=
  match evs with
  | [] => Some s
  | (i, ev) :: evs' => s' ← work i ev s; works evs' s'
  end.

(** The worker threads run while the caller is inside [set_papers]: they
    were started by the constructor of the pool (lines 28 and 48) and take
    steps between the statements of the caller.  [yield evs] lets them take
    the steps [evs]; a step that cannot happen in the state reached (a
    [get] on an empty queue whose window is not over, a step of a thread
    that has ended) is passed over. *)
Definition yield (evs : list (nat * Worker.event)) : M () :=
  modify (λ s, foldl (λ s ie, default s (work ie.1 ie.2 s)) s evs).

(** [for x in l: body(x)] with the workers running: the first list of
    [sched] before the first turn, the second before the second, and what
    is left of [sched] after the last turn. *)
Fixpoint for_each_interleaved {A} (sched : list (list (nat * Worker.event)))
    (l : list A) (body : A → M ()) : M () :=
  match l with
  | [] => yield (concat sched)
  | x :: l' =>
      yield (default [] (head sched)) ;;
      body x ;;
      for_each_interleaved (tail sched) l' body
  end.

(** [set_papers(paper_list, threads_per_source=1)], lines 103 to 110, under
    the schedule [sched] of the workers; [set_papers] above is the run in
    which no worker is scheduled before the call returns. *)
Definition set_papers_interleaved (sched : list (list (nat * Worker.event)))
    (paper_list : list Source) (threads_per_source : Z) : M () :=
  modify (with_papers paper_list) ;;
  ps ← gets papers;
  let num_threads := threads_per_source * Z.of_nat (length ps) in
  timeout ← gets (λ s, thread_timeout_seconds (config s));
  modify (with_pool (Some (ThreadPool.new num_threads timeout))) ;;
  ps ← gets papers;
  for_each_interleaved sched ps
    (λ paper, pool_add_task (download_articles paper)).

End NewsPool.

(** * Properties *)

(** ** Replacing one thread in the list of workers *)

Section Threads.
Context {A B : Type}.
Implicit Types (f : A → list B) (ws : list A).

(** Swapping the thread at index [i] exchanges its contribution to any
    per-thread collection, up to the order of the threads. *)
Lemma bind_insert_Permutation f ws i w w' :
  ws !! i = Some w →
  (<[i := w']> ws ≫= f) ++ f w ≡ₚ (ws ≫= f) ++ f w'.
Proof.
  intros Hi.
  rewrite insert_take_drop by (by eapply lookup_lt_Some).
  rewrite <- (take_drop_middle ws i w Hi) at 3.
  rewrite !bind_app, !bind_cons.
  solve_Permutation.
Qed.

Lemma bind_insert_length f ws i w w' :
  ws !! i = Some w →
  (length (<[i := w']> ws ≫= f) + length (f w) =
   length (ws ≫= f) + length (f w'))%nat.
Proof.
  intros Hi. rewrite <- !length_app.
  apply Permutation_length. by apply bind_insert_Permutation.
Qed.

Lemma bind_replicate_nil f (n : nat) (x : A) :
  f x = [] → replicate n x ≫= f = [].
Proof.
  intros Hx. induction n as [|n IH]; [done|].
  csimpl. by rewrite Hx, IH.
Qed.
End Threads.

(** ** The pool under any schedule *)

Section Pool.
Context {Task : Type}.
Implicit Types (p : ThreadPool.t Task) (q : Queue.t Task) (w : Worker.t Task).
Implicit Types (l : ThreadPool.label Task) (job : Task).

Import ThreadPool.

Local Ltac hist :=
  unfold submitted, started, finished, lost, printed, pending, in_flight,
    calling in *;
  simpl in *; rewrite ?omap_app, ?fmap_app in *; simpl in *;
  rewrite ?app_nil_r in *.

Lemma new_consistent (n timeout : Z) : consistent (@new Task n timeout).
Proof.
  split; hist; rewrite ?bind_replicate_nil by done; try done. lia.
Qed.

(** The cases of [Worker.run_step], one per program point and result. *)
Lemma run_step_cases ev q w q' w' os :
  Worker.run_step ev q w = Some (q', w', os) →
  (∃ e job, ev = Worker.Get e ∧ Worker.at_ w = Worker.Running ∧
     Queue.items q = job :: Queue.items q' ∧
     Queue.maxsize q' = Queue.maxsize q ∧
     Queue.unfinished_tasks q' = Queue.unfinished_tasks q ∧
     w' = Worker.goto w (Worker.Executing job) ∧ os = [Worker.Started job]) ∨
  (ev = Worker.Get true ∧ Worker.at_ w = Worker.Running ∧
     Queue.items q = [] ∧ 0 ≤ Worker.timeout w ∧
     q' = q ∧ w' = Worker.goto w Worker.Stopped ∧ os = []) ∨
  (∃ e, ev = Worker.Get e ∧ Worker.at_ w = Worker.Running ∧
     Worker.timeout w < 0 ∧
     q' = q ∧ w' = Worker.goto w (Worker.Crashed (Some ValueError)) ∧ os = []) ∨
  (∃ job o, ev = Worker.Call o ∧ Worker.at_ w = Worker.Executing job ∧
     (o = Returned ∨ ∃ e, o = RaisedException e) ∧
     q' = q ∧ w' = Worker.goto w (Worker.AfterCall job) ∧
     os = Worker.Finished job o ::
          match o with RaisedException e => [Worker.PrintExc e] | _ => [] end) ∨
  (∃ job name, ev = Worker.Call (RaisedBaseException name) ∧
     Worker.at_ w = Worker.Executing job ∧
     q' = q ∧ w' = Worker.goto w (Worker.Crashed None) ∧
     os = [Worker.Finished job (RaisedBaseException name)]) ∨
  (∃ job, ev = Worker.TaskDone ∧ Worker.at_ w = Worker.AfterCall job ∧
     Queue.items q' = Queue.items q ∧
     Queue.maxsize q' = Queue.maxsize q ∧
     Queue.unfinished_tasks q = S (Queue.unfinished_tasks q') ∧
     w' = Worker.goto w Worker.Running ∧ os = [Worker.Completed job]) ∨
  (∃ job, ev = Worker.TaskDone ∧ Worker.at_ w = Worker.AfterCall job ∧
     Queue.unfinished_tasks q = O ∧
     q' = q ∧ w' = Worker.goto w (Worker.Crashed (Some ValueError)) ∧ os = []).
Proof.
  unfold Worker.run_step, Queue.get, Queue.task_done.
  intros H.
  destruct ev as [e|o|], (Worker.at_ w) as [|job|job| |c] eqn:Hat; try done.
  - destruct (Z.ltb_spec (Worker.timeout w) 0).
    { simplify_eq. right; right; left. eauto 10. }
    destruct (Queue.items q) eqn:Hq.
    + destruct e; simplify_eq. right; left. eauto 10.
    + simplify_eq. left. eexists e, _. simpl. eauto 10.
  - destruct o; simplify_eq.
    + do 3 right; left. eexists _, _. eauto 10.
    + do 3 right; left. eexists _, _. eauto 10.
    + do 4 right; left. eauto 10.
  - destruct (Queue.unfinished_tasks q) eqn:Hu; simplify_eq.
    + do 6 right. eauto 10.
    + do 5 right; left. exists job. simpl. eauto 10.
Qed.

Lemma holding_at w :
  Worker.holding w =
  match Worker.at_ w with
  | Worker.Executing job | Worker.AfterCall job => [job]
  | _ => []
  end.
Proof. done. Qed.

Lemma calling_at w :
  Worker.calling w =
  match Worker.at_ w with
  | Worker.Executing job => [job]
  | _ => []
  end.
Proof. done. Qed.

Lemma step_consistent l p p' :
  step l p = Some p' → consistent p → consistent p'.
Proof.
  intros Hs [Hf Ha Hc Hb]. destruct l as [job|i ev]; simpl in Hs.
  - unfold add_task, Queue.put in Hs.
    destruct (Queue.full (tasks p)) eqn:Hfull; simplify_eq/=.
    split; hist.
    + by rewrite app_assoc, Hf.
    + done.
    + rewrite Hc, !length_app. simpl. lia.
    + unfold Queue.full, Queue.qsize in Hfull. rewrite length_app. simpl. lia.
  - destruct (workers p !! i) as [w|] eqn:Hw; simplify_eq/=.
    destruct (Worker.run_step ev (tasks p) w) as [[[q w'] os]|] eqn:Hr;
      simplify_eq/=.
    pose proof (bind_insert_Permutation Worker.calling _ i w w' Hw) as Pc.
    pose proof (bind_insert_length Worker.holding _ i w w' Hw) as Lh.
    rewrite (holding_at w), (holding_at w') in Lh.
    rewrite (calling_at w), (calling_at w') in Pc.
    apply run_step_cases in Hr.
    destruct Hr as [(e & job & -> & Hat & Hq & Hm & Hu & -> & ->)
      |[(-> & Hat & Hq & Ht & -> & -> & ->)
      |[(e & -> & Hat & Ht & -> & -> & ->)
      |[(job & o & -> & Hat & [->|[e ->]] & -> & -> & ->)
      |[(job & name & -> & Hat & -> & -> & ->)
      |[(job & -> & Hat & Hq & Hm & Hu & -> & ->)
      |(job & -> & Hat & Hu & -> & -> & ->)]]]]]];
      simpl in Pc, Lh; rewrite Hat in Pc, Lh; simpl in Pc, Lh.
    all: split; hist.
    all: try (rewrite ?Hq in *; rewrite <- ?Hf, <- ?app_assoc; done).
    all: try (rewrite ?Hq, ?Hm in *; simpl in *; lia).
    all: try (rewrite ?Hq, ?Hu, ?Hc in *; rewrite ?length_app in *; simpl in *; lia).
    all: try (rewrite ?app_nil_r in Pc; first [rewrite Pc|rewrite <- Pc]; rewrite ?Ha; solve_Permutation).
    all: rewrite Ha, <- Pc; solve_Permutation.
Qed.

Lemma run_cons l ls p :
  run (l :: ls) p = p' ← step l p; run ls p'.
Proof. done. Qed.

Lemma run_consistent ls p p' :
  run ls p = Some p' → consistent p → consistent p'.
Proof.
  revert p. induction ls as [|l ls IH]; intros p Hr Hp; simplify_eq/=; [done|].
  destruct (step l p) as [p1|] eqn:Hs; simplify_eq/=.
  eauto using step_consistent.
Qed.

(** A step changes neither the bound of the queue nor the number of
    threads, and adds to the submissions exactly the job of an [AddTask]. *)
Lemma step_frame l p p' :
  step l p = Some p' →
  Queue.maxsize (tasks p') = Queue.maxsize (tasks p) ∧
  length (workers p') = length (workers p) ∧
  submitted p' = submitted p ++ added [l].
Proof.
  intros Hs. destruct l as [job|i ev]; simpl in Hs.
  - unfold add_task, Queue.put in Hs.
    destruct (Queue.full (tasks p)); simplify_eq/=. by hist.
  - destruct (workers p !! i) as [w|] eqn:Hw; simplify_eq/=.
    destruct (Worker.run_step ev (tasks p) w) as [[[q w'] os]|] eqn:Hr;
      simplify_eq/=.
    rewrite length_insert.
    apply run_step_cases in Hr.
    destruct Hr as [(e & job & -> & Hat & Hq & Hm & Hu & -> & ->)
      |[(-> & Hat & Hq & Ht & -> & -> & ->)
      |[(e & -> & Hat & Ht & -> & -> & ->)
      |[(job & o & -> & Hat & [->|[e ->]] & -> & -> & ->)
      |[(job & name & -> & Hat & -> & -> & ->)
      |[(job & -> & Hat & Hq & Hm & Hu & -> & ->)
      |(job & -> & Hat & Hu & -> & -> & ->)]]]]]]; by hist.
Qed.

Lemma run_frame ls p p' :
  run ls p = Some p' →
  Queue.maxsize (tasks p') = Queue.maxsize (tasks p) ∧
  length (workers p') = length (workers p) ∧
  submitted p' = submitted p ++ added ls.
Proof.
  revert p. induction ls as [|l ls IH]; intros p Hr; simplify_eq/=.
  { by rewrite app_nil_r. }
  destruct (step l p) as [p1|] eqn:Hs; simplify_eq/=.
  destruct (step_frame _ _ _ Hs) as (Hm & Hl & Hsub).
  destruct (IH _ Hr) as (Hm' & Hl' & Hsub').
  rewrite Hm', Hl', Hsub', Hsub, Hm, Hl. split_and!; [done..|].
  rewrite <- app_assoc. f_equal. unfold added. simpl.
  by destruct l.
Qed.

(** Everything reachable from a fresh pool is consistent. *)
Lemma reachable_consistent (n timeout : Z) ls p :
  run ls (new n timeout) = Some p →
  consistent p ∧ Queue.maxsize (tasks p) = n ∧
  length (workers p) = Z.to_nat n ∧ submitted p = added ls.
Proof.
  intros Hr. split; [eauto using run_consistent, new_consistent|].
  destruct (run_frame _ _ _ Hr) as (-> & -> & ->). simpl.
  by rewrite length_replicate.
Qed.

(** [put] is blocked exactly when a bounded queue is at its bound; otherwise
    the job goes to the tail. *)
Lemma add_task_spec job p :
  add_task job p =
  if bool_decide (0 < Queue.maxsize (tasks p) ≤ Z.of_nat (length (pending p)))
  then None
  else Some {| tasks := {| Queue.maxsize := Queue.maxsize (tasks p);
                           Queue.items := pending p ++ [job];
                           Queue.unfinished_tasks :=
                             S (Queue.unfinished_tasks (tasks p)) |};
               workers := workers p;
               history := history p ++ [Worker.Submitted job] |}.
Proof.
  unfold add_task, Queue.put, Queue.full, Queue.qsize, pending.
  case_bool_decide as Hd.
  - destruct Hd as [?%Z.ltb_lt ?%Z.leb_le]. by rewrite H, H0.
  - destruct (0 <? _) eqn:H1, (_ <=? _) eqn:H2; simpl; try done.
    apply Z.ltb_lt in H1. apply Z.leb_le in H2. lia.
Qed.

Lemma holding_nil_calling_nil (ws : list (Worker.t Task)) :
  ws ≫= Worker.holding = [] → ws ≫= Worker.calling = [].
Proof.
  induction ws as [|w ws IH]; [done|]. csimpl.
  intros [Hw Hws]%app_eq_nil. rewrite (IH Hws), app_nil_r.
  revert Hw. rewrite holding_at, calling_at. by destruct (Worker.at_ w).
Qed.

Lemma lost_nil_swallowed (h : list (Worker.obs Task)) :
  omap (λ o, match o with
             | Worker.Finished j (RaisedBaseException _) => Some j
             | _ => None
             end) h = [] →
  Forall (λ jo : Task * outcome,
            jo.2 = Returned ∨ ∃ e, jo.2 = RaisedException e)
    (omap (λ o, match o with
                | Worker.Finished j r => Some (j, r)
                | _ => None
                end) h).
Proof.
  induction h as [|o h IH]; [by constructor|]. csimpl.
  destruct o as [j|j|j [|e|name]|e|j]; simpl; try done;
    intros Hl; constructor; eauto.
Qed.

(** A stopped thread has no step, and no step of another thread touches it. *)
Lemma stopped_no_step i ev p w :
  workers p !! i = Some w → Worker.at_ w = Worker.Stopped →
  step (Work i ev) p = None.
Proof.
  intros Hw Hat. simpl. rewrite Hw. simpl.
  unfold Worker.run_step. rewrite Hat. by destruct ev.
Qed.

Lemma stopped_step l i p p' w :
  workers p !! i = Some w → Worker.at_ w = Worker.Stopped →
  step l p = Some p' → workers p' !! i = Some w.
Proof.
  intros Hw Hat Hs. destruct l as [job|j ev].
  - simpl in Hs. unfold add_task in Hs.
    destruct (Queue.put job (tasks p)); by simplify_eq/=.
  - destruct (decide (j = i)) as [->|Hne].
    { by rewrite (stopped_no_step i ev p w) in Hs. }
    simpl in Hs. destruct (workers p !! j) as [wj|]; simplify_eq/=.
    destruct (Worker.run_step ev (tasks p) wj) as [[[q w'] os]|];
      simplify_eq/=.
    by rewrite list_lookup_insert_ne.
Qed.

Lemma stopped_run ls i p p' w :
  workers p !! i = Some w → Worker.at_ w = Worker.Stopped →
  run ls p = Some p' → workers p' !! i = Some w.
Proof.
  revert p. induction ls as [|l ls IH]; intros p Hw Hat Hr; simplify_eq/=.
  { done. }
  destruct (step l p) as [p1|] eqn:Hs; simplify_eq/=.
  eauto using stopped_step.
Qed.

(** A thread inside a call holds a job, so the counter is not zero. *)
Lemma holding_counted i p w job :
  consistent p → workers p !! i = Some w → Worker.holding w = [job] →
  ∃ n, Queue.unfinished_tasks (tasks p) = S n.
Proof.
  intros [_ _ Hc _] Hw Hh.
  pose proof (bind_insert_length Worker.holding _ i w
                (Worker.goto w Worker.Stopped) Hw) as Hl.
  rewrite Hh in Hl. simpl in Hl.
  rewrite !length_app in Hc. unfold in_flight in Hc.
  destruct (Queue.unfinished_tasks (tasks p)); [lia|eauto].
Qed.

(** The two steps of a worker whose job raises an exception: the handler of
    line 40 prints the trace, then line 42 counts the job as done and the
    worker is back at the top of its loop. *)
Lemma raised_then_task_done (n timeout : Z) ls p i w job e :
  run ls (new n timeout) = Some p →
  workers p !! i = Some w →
  Worker.at_ w = Worker.Executing job →
  ∃ p1 p2,
    step (Work i (Worker.Call (RaisedException e))) p = Some p1 ∧
    history p1 =
      history p ++
      [Worker.Finished job (RaisedException e); Worker.PrintExc e] ∧
    step (Work i Worker.TaskDone) p1 = Some p2 ∧
    history p2 = history p1 ++ [Worker.Completed job] ∧
    Queue.unfinished_tasks (tasks p) = S (Queue.unfinished_tasks (tasks p2)) ∧
    pending p2 = pending p ∧
    workers p2 !! i = Some (Worker.goto w Worker.Running).
Proof.
  intros Hr Hw Hat.
  destruct (reachable_consistent _ _ _ _ Hr) as (Hp & _).
  destruct (holding_counted i p w job Hp Hw) as [u Hu].
  { by rewrite holding_at, Hat. }
  assert (i < length (workers p))%nat as Hi by (by eapply lookup_lt_Some).
  eexists _, _. split.
  { simpl. rewrite Hw. simpl. unfold Worker.run_step. rewrite Hat. done. }
  split; [done|]. split.
  { simpl. rewrite list_lookup_insert_eq by done. simpl.
    unfold Worker.run_step, Queue.task_done. simpl. rewrite Hu. done. }
  simpl. rewrite list_insert_insert_eq, list_lookup_insert_eq by done.
  by rewrite Hu.
Qed.

(** A queue built with a bound of zero or less is never full. *)
Lemma unbounded_add_task (n timeout : Z) ls p job :
  n ≤ 0 →
  run ls (new n timeout) = Some p →
  ∃ p', add_task job p = Some p' ∧ pending p' = pending p ++ [job].
Proof.
  intros Hn Hr.
  destruct (reachable_consistent _ _ _ _ Hr) as (_ & Hm & _).
  rewrite add_task_spec, Hm. case_bool_decide; [lia|]. eauto.
Qed.

Lemma added_work ls : Forall (λ l, is_work l = true) ls → added ls = [].
Proof.
  induction 1 as [|l ls Hl _ IH]; [done|].
  unfold added in *. csimpl. rewrite IH. by destruct l.
Qed.

(** The workers leave the thread count and the submissions alone. *)
Lemma work_frame ls p p' :
  Forall (λ l, is_work l = true) ls →
  run ls p = Some p' →
  length (workers p') = length (workers p) ∧ submitted p' = submitted p.
Proof.
  intros Hw Hr. destruct (run_frame _ _ _ Hr) as (_ & -> & ->).
  by rewrite (added_work _ Hw), app_nil_r.
Qed.

(** X17.  As long as fewer jobs were submitted than the bound of the queue, the
    next [add_task] is not blocked, whatever the workers did in between.  In
    particular the N submissions of [set_papers] to its queue of k*N slots,
    k >= 1, go through under every interleaving with the workers. *)
Lemma add_task_within_bound (n timeout : Z) ls p job :
  run ls (new n timeout) = Some p →
  Z.of_nat (length (added ls)) < n →
  is_Some (add_task job p).
Proof.
  intros Hr Hlt.
  destruct (reachable_consistent _ _ _ _ Hr) as ([Hf _ _ _] & Hm & _ & Hsub).
  rewrite <- Hsub, <- Hf, length_app in Hlt.
  rewrite add_task_spec, Hm. case_bool_decide; [lia|]. eauto.
Qed.

(** *** Worker: idle exit *)

(** C5.  A worker inside [get] whose window runs out on an empty queue
    leaves its loop: it is [Stopped], the queue and the history are as
    before.  From then on, under every schedule of the pool, it stays
    [Stopped] and none of its actions (in particular no further [get]) can
    take place. *)
Theorem worker_idle_exit_is_terminal i p w :
  workers p !! i = Some w →
  Worker.at_ w = Worker.Running →
  0 ≤ Worker.timeout w →
  pending p = [] →
  ∃ p1,
    step (Work i (Worker.Get true)) p = Some p1 ∧
    workers p1 !! i = Some (Worker.goto w Worker.Stopped) ∧
    tasks p1 = tasks p ∧ history p1 = history p ∧
    ∀ ls p2, run ls p1 = Some p2 →
      workers p2 !! i = Some (Worker.goto w Worker.Stopped) ∧
      ∀ ev, step (Work i ev) p2 = None.
Proof.
  intros Hw Hat Ht Hq.
  assert (Hs : step (Work i (Worker.Get true)) p =
               Some {| tasks := tasks p;
                       workers := <[i := Worker.goto w Worker.Stopped]> (workers p);
                       history := history p |}).
  { simpl. rewrite Hw. simpl. unfold Worker.run_step, Queue.get.
    unfold pending in Hq. rewrite Hat, Hq.
    destruct (Z.ltb_spec (Worker.timeout w) 0); [lia|].
    simpl. by rewrite app_nil_r. }
  eexists. split; [exact Hs|]. simpl.
  assert (Hi : <[i := Worker.goto w Worker.Stopped]> (workers p) !! i =
               Some (Worker.goto w Worker.Stopped)).
  { apply list_lookup_insert_eq. by eapply lookup_lt_Some. }
  split_and!; [done..|].
  intros ls p2 Hr.
  assert (workers p2 !! i = Some (Worker.goto w Worker.Stopped)) as Hw2.
  { eapply stopped_run; [|done|exact Hr]. done. }
  split; [done|]. intros ev. by eapply stopped_no_step.
Qed.

(** *** Task channel: bound and order *)

(** The reading of C6 for every thread count, refuted at [thread_count = 0]:
    one [add_task] on a pool built with no thread succeeds, and the channel
    then holds more items than the thread count. *)
Lemma channel_bound_fails_without_threads :
  ¬ (∀ (thread_count timeout : Z) (ls : list (label nat)) (p : t nat),
       run ls (new thread_count timeout) = Some p →
       Z.of_nat (length (pending p)) ≤ thread_count).
Proof.
  intros H. specialize (H 0 5 [AddTask 7%nat] _ eq_refl). simpl in H. lia.
Qed.

(** C6, amended to [thread_count >= 1].  Under every schedule the channel of
    a pool built with [thread_count >= 1] threads has bound [thread_count],
    never holds more than [thread_count] jobs, and is first-in first-out: the
    jobs handed to workers so far, in the order they were handed out,
    followed by the pending jobs, are the submitted jobs in submission
    order.  [add_task] on a full channel is blocked (the pool is as before,
    nothing is raised); on a channel with a free slot it puts the job at the
    tail. *)
Theorem channel_bounded_fifo (thread_count timeout : Z) ls p :
  1 ≤ thread_count →
  run ls (new thread_count timeout) = Some p →
  Queue.maxsize (tasks p) = thread_count ∧
  Z.of_nat (length (pending p)) ≤ thread_count ∧
  started p ++ pending p = added ls ∧
  ∀ job,
    add_task job p =
    if bool_decide (Z.of_nat (length (pending p)) = thread_count)
    then None
    else Some {| tasks := {| Queue.maxsize := thread_count;
                             Queue.items := pending p ++ [job];
                             Queue.unfinished_tasks :=
                               S (Queue.unfinished_tasks (tasks p)) |};
                 workers := workers p;
                 history := history p ++ [Worker.Submitted job] |}.
Proof.
  intros Hn Hr.
  destruct (reachable_consistent _ _ _ _ Hr) as ([Hf _ _ Hb] & Hm & _ & Hsub).
  rewrite Hm in Hb. split_and!; [done|lia|by rewrite Hf|].
  intros job. rewrite add_task_spec, Hm.
  repeat case_bool_decide; try done; lia.
Qed.

(** *** Completion barrier *)

(** [wait_completion] returns exactly when no job is pending, none is held
    by a worker and none was lost with a worker that died. *)
Lemma wait_completion_iff p :
  consistent p →
  wait_completion p = true ↔ pending p = [] ∧ in_flight p = [] ∧ lost p = [].
Proof.
  intros [_ _ Hc _]. unfold wait_completion, Queue.join. split.
  - destruct (Queue.unfinished_tasks (tasks p)); [|done]. intros _.
    symmetry in Hc. apply length_zero_iff_nil in Hc.
    by apply app_eq_nil in Hc as [Hq [Hh Hl]%app_eq_nil].
  - intros (Hq & Hh & Hl). by rewrite Hc, Hq, Hh, Hl.
Qed.

(** With nothing pending and nothing held, every submitted job was handed
    out, in submission order, and its call has ended. *)
Lemma drained_all_finished p :
  consistent p → pending p = [] → in_flight p = [] →
  started p = submitted p ∧ (finished p).*1 ≡ₚ submitted p.
Proof.
  intros [Hf Ha _ _] Hq Hh. rewrite Hq, app_nil_r in Hf.
  unfold calling in Ha. unfold in_flight in Hh.
  rewrite (holding_nil_calling_nil _ Hh), app_nil_r in Ha.
  split; [done|]. by rewrite <- Ha, Hf.
Qed.

(** C7.  Take any schedule of a pool: any number of submissions, any
    interleaving of the workers, any outcome of any call.  If
    [wait_completion] returns in the state reached, then every submitted job
    was handed to a worker once, in submission order; the jobs whose call
    has ended are the submitted jobs, each as many times as it was
    submitted; every one of them returned or raised an exception that was
    swallowed; and no job is pending or held by a worker. *)
Theorem wait_completion_barrier (num_threads timeout : Z) ls p :
  run ls (new num_threads timeout) = Some p →
  wait_completion p = true →
  started p = added ls ∧
  (finished p).*1 ≡ₚ added ls ∧
  Forall (λ jo, jo.2 = Returned ∨ ∃ e, jo.2 = RaisedException e) (finished p) ∧
  pending p = [] ∧ in_flight p = [].
Proof.
  intros Hr Hj.
  destruct (reachable_consistent _ _ _ _ Hr) as (Hp & _ & _ & Hsub).
  apply (wait_completion_iff p Hp) in Hj as (Hq & Hh & Hl).
  destruct (drained_all_finished p Hp Hq Hh) as [Hs Hfin].
  rewrite Hsub in Hs, Hfin.
  split_and!; [done|done|by apply lost_nil_swallowed|done|done].
Qed.

End Pool.

(** *** The pool on concrete schedules *)

Section PoolRuns.
Import ThreadPool.

Lemma worker_idle_exit_is_terminal_witness :
  ∃ p1 : t nat,
    step (Work 0 (Worker.Get true)) (new 1 5) = Some p1 ∧
    workers p1 !! 0%nat = Some (Worker.goto (Worker.new 5) Worker.Stopped) ∧
    tasks p1 = tasks (new 1 5) ∧ history p1 = history (new 1 5) ∧
    ∀ ls (p2 : t nat), run ls p1 = Some p2 →
      workers p2 !! 0%nat = Some (Worker.goto (Worker.new 5) Worker.Stopped) ∧
      ∀ ev, step (Work 0 ev) p2 = None.
Proof.
  apply (worker_idle_exit_is_terminal 0 (new 1 5) (Worker.new 5)).
  - reflexivity.
  - reflexivity.
  - simpl. lia.
  - reflexivity.
Defined.

Lemma channel_bounded_fifo_witness :
  ∃ p : t nat,
    run [AddTask 1%nat; AddTask 2%nat; Work 0 (Worker.Get false);
         AddTask 3%nat] (new 2 5) = Some p ∧
    started p = [1%nat] ∧ pending p = [2%nat; 3%nat] ∧
    add_task 4%nat p = None ∧
    Queue.maxsize (tasks p) = 2 ∧
    Z.of_nat (length (pending p)) ≤ 2 ∧
    started p ++ pending p =
      added [AddTask 1%nat; AddTask 2%nat; Work 0 (Worker.Get false);
             AddTask 3%nat].
Proof.
  eexists. split; [vm_compute; reflexivity|].
  split; [reflexivity|]. split; [reflexivity|]. split; [reflexivity|].
  pose proof (channel_bounded_fifo 2 5
    [AddTask 1%nat; AddTask 2%nat; Work 0 (Worker.Get false); AddTask 3%nat]
    _ ltac:(lia) eq_refl) as (Hm & Hb & Hf & _).
  exact (conj Hm (conj Hb Hf)).
Defined.

Lemma wait_completion_barrier_witness :
  ∃ p : t nat,
    run [AddTask 1%nat; AddTask 2%nat;
         Work 0 (Worker.Get false); Work 1 (Worker.Get false);
         Work 1 (Worker.Call Returned);
         Work 0 (Worker.Call (RaisedException (JobError "IOError")));
         Work 1 Worker.TaskDone; Work 0 Worker.TaskDone] (new 2 5) = Some p ∧
    wait_completion p = true ∧
    finished p = [(2%nat, Returned);
                  (1%nat, RaisedException (JobError "IOError"))] ∧
    started p = [1%nat; 2%nat] ∧
    (finished p).*1 ≡ₚ [1%nat; 2%nat] ∧
    pending p = [] ∧ in_flight p = [].
Proof.
  eexists. split; [vm_compute; reflexivity|]. split; [reflexivity|].
  split; [reflexivity|].
  pose proof (wait_completion_barrier 2 5
    [AddTask 1%nat; AddTask 2%nat;
     Work 0 (Worker.Get false); Work 1 (Worker.Get false);
     Work 1 (Worker.Call Returned);
     Work 0 (Worker.Call (RaisedException (JobError "IOError")));
     Work 1 Worker.TaskDone; Work 0 Worker.TaskDone] _
    ltac:(vm_compute; reflexivity) ltac:(vm_compute; reflexivity))
    as (Hs & Hp & _ & Hq & Hh).
  exact (conj Hs (conj Hp (conj Hq Hh))).
Defined.
End PoolRuns.


(** ** The orchestrator *)

Section Orchestrator.
Import NewsPool.
Implicit Types (s : NewsPool.t) (p : ThreadPool.t Task).

(** With a pool set, [join] either waits or returns with the batch cleared;
    it raises nothing. *)
Lemma join_with_pool s p :
  pool s = Some p →
  join s =
  if ThreadPool.wait_completion p
  then Returns () {| papers := []; articles := PyList []; pool := None;
                     config := config s; stdout := stdout s |}
  else Blocks s.
Proof.
  intros Hp.
  cbv [join join_handling pool_wait_completion mbind M_bind mret M_ret gets
       modify raise block].
  repeat (rewrite Hp; simpl). by destruct (ThreadPool.wait_completion p).
Qed.

(** Without a pool, [join] raises and touches no field: [RuntimeError]
    after the message when [articles] is [None], [AttributeError] with
    nothing printed otherwise. *)
Lemma join_without_pool s :
  pool s = None →
  join s =
  match articles s with
  | PyNone => Raises RuntimeError (with_stdout (stdout s ++ [misuse_message]) s)
  | _ => Raises AttributeError s
  end.
Proof.
  intros Hp.
  cbv [join join_handling pool_wait_completion mbind M_bind mret M_ret gets
       modify raise block print].
  rewrite Hp. destruct (articles s); simpl; by rewrite ?Hp.
Qed.

Local Ltac run_M :=
  cbv [set_papers set_articles join join_handling pool_add_task
       pool_wait_completion mbind M_bind mret M_ret gets modify raise block
       print lift].

(** The loop of [set_papers]: while the bound of the queue leaves room for
    the sources still to come (or the queue has no bound), every
    [add_task] goes through. *)
Lemma add_tasks_returns (l : list Source) s p :
  pool s = Some p →
  Queue.maxsize (ThreadPool.tasks p) ≤ 0 ∨
  Z.of_nat (length (ThreadPool.pending p) + length l) ≤
    Queue.maxsize (ThreadPool.tasks p) →
  ∃ p',
    for_each l (λ paper, pool_add_task (download_articles paper)) s =
      Returns () (with_pool (Some p') s) ∧
    Queue.maxsize (ThreadPool.tasks p') = Queue.maxsize (ThreadPool.tasks p) ∧
    ThreadPool.pending p' =
      ThreadPool.pending p ++ ((λ paper, job (download_articles paper)) <$> l) ∧
    ThreadPool.workers p' = ThreadPool.workers p ∧
    ThreadPool.history p' =
      ThreadPool.history p ++
      ((λ paper, Worker.Submitted (job (download_articles paper))) <$> l) ∧
    ThreadPool.run
      ((λ paper, ThreadPool.AddTask (job (download_articles paper))) <$> l) p =
      Some p'.
Proof.
  revert s p. induction l as [|paper l IH]; intros s p Hp Hroom.
  - exists p. rewrite !app_nil_r. split_and!; try done.
    destruct s; simpl in *; by subst.
  - pose proof (add_task_spec (job (download_articles paper)) p)
      as Hadd.
    case_bool_decide as Hfull; [simpl in Hroom; lia|].
    set (p1 := {| ThreadPool.tasks := _ |}) in Hadd.
    destruct (IH (with_pool (Some p1) s) p1)
      as (p' & Hrun & Hm & Hq & Hw & Hh & Hsched).
    { done. }
    { unfold ThreadPool.pending in *. simpl in *.
      rewrite length_app. simpl. lia. }
    exists p'. split_and!.
    + simpl. run_M. rewrite Hp, Hadd. exact Hrun.
    + by rewrite Hm.
    + rewrite Hq. unfold ThreadPool.pending. simpl.
      by rewrite <- app_assoc.
    + by rewrite Hw.
    + rewrite Hh. simpl. by rewrite <- app_assoc.
    + csimpl. by rewrite Hadd.
Qed.

(** *** set_articles *)

(** C1, as the code has it.  For every article list, [set_articles] stores
    the list and then raises [TypeError] on line 115, where the list itself
    is compared with the ceiling: the pool is the one that was there before
    the call (none on a fresh object), no worker is created and no job is
    submitted. *)
Theorem set_articles_raises_TypeError (l : list Article) s :
  set_articles (PyList l) s = Raises TypeError (with_articles (PyList l) s).
Proof. reflexivity. Qed.

(** *** join *)

(** C2, as the code has it.  On a fresh object [join] raises
    [AttributeError] from the attribute access on the missing pool; the
    message of lines 95 and 96 is not printed and no field changes. *)
Theorem join_without_batch_raises_AttributeError config default :
  join (new config default) = Raises AttributeError (new config default) ∧
  stdout (new config default) = [].
Proof. split; reflexivity. Qed.

(** C8.  With a pool set, [join] waits for [wait_completion]: as long as
    the pool has unfinished jobs the caller is suspended and nothing
    changes; when [wait_completion] returns, [join] returns with [papers]
    and [articles] empty and [pool] cleared. *)
Theorem join_waits_then_clears s p :
  pool s = Some p →
  join s =
  if ThreadPool.wait_completion p
  then Returns () {| papers := []; articles := PyList []; pool := None;
                     config := config s; stdout := stdout s |}
  else Blocks s.
Proof. apply join_with_pool. Qed.

(** C9.  When [join] raises, [papers], [articles] and [pool] are what they
    were before the call; and it raises only when there is no pool. *)
Theorem join_error_keeps_batch_state s e s' :
  join s = Raises e s' →
  papers s' = papers s ∧ articles s' = articles s ∧ pool s' = pool s ∧
  pool s = None.
Proof.
  intros Hj. destruct (pool s) as [p|] eqn:Hp.
  - rewrite (join_with_pool s p Hp) in Hj.
    by destruct (ThreadPool.wait_completion p).
  - rewrite (join_without_pool s Hp) in Hj.
    destruct (articles s) eqn:Ha; simplify_eq; simpl; by rewrite ?Hp, ?Ha.
Qed.

Lemma join_error_keeps_batch_state_witness :
  set_articles (PyList [ArticleObj 1]) (new None (mkConfiguration 5 10)) =
    Raises TypeError
      (with_articles (PyList [ArticleObj 1])
         (new None (mkConfiguration 5 10))) ∧
  join (with_articles (PyList [ArticleObj 1])
          (new None (mkConfiguration 5 10))) =
    Raises AttributeError
      (with_articles (PyList [ArticleObj 1])
         (new None (mkConfiguration 5 10))) ∧
  papers (with_articles (PyList [ArticleObj 1])
            (new None (mkConfiguration 5 10))) = [] ∧
  articles (with_articles (PyList [ArticleObj 1])
              (new None (mkConfiguration 5 10))) = PyList [ArticleObj 1] ∧
  pool (with_articles (PyList [ArticleObj 1])
          (new None (mkConfiguration 5 10))) = None ∧
  pool (with_articles (PyList [ArticleObj 1])
          (new None (mkConfiguration 5 10))) = None.
Proof.
  split; [vm_compute; reflexivity|]. split; [vm_compute; reflexivity|].
  apply (join_error_keeps_batch_state
           (with_articles (PyList [ArticleObj 1])
              (new None (mkConfiguration 5 10)))
           AttributeError
           (with_articles (PyList [ArticleObj 1])
              (new None (mkConfiguration 5 10)))).
  vm_compute. reflexivity.
Defined.

(** The guard of [join] is met only after [articles] was set to [None]:
    then the message is printed and the bare [raise], with no exception
    being handled, gives [RuntimeError]. *)
Example join_after_set_articles_None :
  ∃ s, set_articles PyNone (new None (mkConfiguration 5 10)) =
         Raises TypeError s ∧
       join s = Raises RuntimeError (with_stdout [misuse_message] s).
Proof. eexists. split; reflexivity. Qed.

(** *** set_papers *)

Lemma submitted_history (l : list Source) :
  omap (λ o, match o with Worker.Submitted j => Some j | _ => None end)
       ((λ paper, Worker.Submitted (job (download_articles paper))) <$> l) =
  (λ paper, job (download_articles paper)) <$> l.
Proof. induction l as [|x l IH]; [done|]. csimpl. by rewrite IH. Qed.

(** [set_papers] for any integer [threads_per_source]: the pool is what
    [ThreadPool(k*N, timeout)] becomes after the N submissions, one
    [download_articles] per source in list order, none of them blocked.  A
    product [k*N <= 0] gives no worker and a queue without bound. *)
Lemma set_papers_pool (paper_list : list Source) (k : Z) s :
  ∃ p,
    set_papers paper_list k s =
      Returns () (with_pool (Some p) (with_papers paper_list s)) ∧
    ThreadPool.run
      ((λ paper, ThreadPool.AddTask (job (download_articles paper)))
         <$> paper_list)
      (ThreadPool.new (k * Z.of_nat (length paper_list))
         (thread_timeout_seconds (config s))) = Some p ∧
    ThreadPool.workers p =
      replicate (Z.to_nat (k * Z.of_nat (length paper_list)))
        (Worker.new (thread_timeout_seconds (config s))) ∧
    ThreadPool.submitted p =
      (λ paper, job (download_articles paper)) <$> paper_list.
Proof.
  set (s1 := with_papers paper_list s).
  set (p0 := ThreadPool.new (k * Z.of_nat (length paper_list))
               (thread_timeout_seconds (config s)) : ThreadPool.t Task).
  destruct (add_tasks_returns paper_list (with_pool (Some p0) s1) p0)
    as (p & Hrun & Hm & Hq & Hw & Hh & Hsched).
  { done. }
  { simpl. destruct (decide (k ≤ 0)); [left; nia | right; nia]. }
  exists p. split_and!; [exact Hrun|exact Hsched|by rewrite Hw|].
  unfold ThreadPool.submitted. rewrite Hh. simpl. apply submitted_history.
Qed.

Local Arguments ThreadPool.step : simpl never.

(** Worker steps of the orchestrator's pool are a schedule of that pool. *)
Lemma works_run evs s s' p :
  pool s = Some p →
  works evs s = Some s' →
  ∃ p', ThreadPool.run ((λ ie, ThreadPool.Work ie.1 ie.2) <$> evs) p = Some p' ∧
        s' = with_pool (Some p') s.
Proof.
  revert s p. induction evs as [|[i ev] evs IH]; intros s p Hp Hw.
  - simpl in Hw. injection Hw as <-. exists p. split; [done|].
    destruct s; simpl in *; by subst.
  - rewrite fmap_cons, run_cons.
    cbn [works] in Hw. unfold work in Hw. rewrite Hp in Hw. simpl in Hw.
    destruct (ThreadPool.step (ThreadPool.Work i ev) p) as [p1|] eqn:Hs;
      [|done].
    simpl in Hw.
    destruct (IH (with_pool (Some p1) s) p1 eq_refl Hw) as (p' & Hr & ->).
    exists p'. simpl. by rewrite Hs.
Qed.

Lemma join_waits_then_clears_witness :
  ∃ s1 s2,
    set_papers [SourceObj 1; SourceObj 2; SourceObj 3] 1
      (new None (mkConfiguration 5 10)) = Returns () s1 ∧
    join s1 = Blocks s1 ∧
    works [(0, Worker.Get false); (1, Worker.Get false); (2, Worker.Get false);
           (1, Worker.Call Returned); (1, Worker.TaskDone);
           (0, Worker.Call (RaisedException (JobError "IOError")));
           (2, Worker.Call Returned); (0, Worker.TaskDone);
           (2, Worker.TaskDone)]%nat s1 = Some s2 ∧
    join s2 = Returns () (new None (mkConfiguration 5 10)).
Proof.
  eexists _, _. split; [vm_compute; reflexivity|].
  split; [by erewrite join_waits_then_clears by reflexivity|].
  split; [vm_compute; reflexivity|].
  by erewrite join_waits_then_clears by reflexivity.
Defined.

(** *** Errors of a job *)

(** C4.  In any state of a pool, take a worker that is calling a job and let
    the call raise an exception [e].  The worker's next two steps exist and
    are: the handler, which records the end of the call and prints the trace
    of [e]; then [task_done], which lowers the counter of unfinished jobs by
    one and leaves the worker at the top of its loop.  [wait_completion]
    only reads that counter, and [join] on an orchestrator holding this pool
    waits or returns: it does not raise. *)
Theorem job_exception_is_swallowed (n timeout : Z) ls p i w jb e :
  ThreadPool.run ls (ThreadPool.new n timeout) = Some p →
  ThreadPool.workers p !! i = Some w →
  Worker.at_ w = Worker.Executing jb →
  ∃ p1 p2,
    ThreadPool.step (ThreadPool.Work i (Worker.Call (RaisedException e))) p =
      Some p1 ∧
    ThreadPool.history p1 =
      ThreadPool.history p ++
      [Worker.Finished jb (RaisedException e); Worker.PrintExc e] ∧
    ThreadPool.printed p1 = ThreadPool.printed p ++ [e] ∧
    ThreadPool.step (ThreadPool.Work i Worker.TaskDone) p1 = Some p2 ∧
    ThreadPool.history p2 = ThreadPool.history p1 ++ [Worker.Completed jb] ∧
    Queue.unfinished_tasks (ThreadPool.tasks p) =
      S (Queue.unfinished_tasks (ThreadPool.tasks p2)) ∧
    ThreadPool.workers p2 !! i = Some (Worker.goto w Worker.Running) ∧
    ThreadPool.wait_completion p2 =
      bool_decide (Queue.unfinished_tasks (ThreadPool.tasks p2) = O) ∧
    ∀ s, pool s = Some p2 → ∀ e' s', join s ≠ Raises e' s'.
Proof.
  intros Hr Hw Hat.
  destruct (raised_then_task_done n timeout ls p i w jb e Hr Hw Hat)
    as (p1 & p2 & H1 & Hh1 & H2 & Hh2 & Hu & _ & Hw2).
  exists p1, p2. split_and!; try done.
  - unfold ThreadPool.printed. by rewrite Hh1, omap_app.
  - unfold ThreadPool.wait_completion, Queue.join.
    by destruct (Queue.unfinished_tasks (ThreadPool.tasks p2)).
  - intros s Hp e' s'. rewrite (join_with_pool s p2 Hp).
    by destruct (ThreadPool.wait_completion p2).
Qed.

Lemma job_exception_is_swallowed_witness :
  ∃ p,
    ThreadPool.run [ThreadPool.AddTask (job (download (ArticleObj 1)));
                    ThreadPool.Work 0 (Worker.Get false)]
      (ThreadPool.new 1 5) = Some p ∧
    Queue.unfinished_tasks (ThreadPool.tasks p) = 1%nat ∧
    ∃ p1 p2,
      ThreadPool.step
        (ThreadPool.Work 0 (Worker.Call (RaisedException (JobError "IOError"))))
        p = Some p1 ∧
      ThreadPool.history p1 =
        ThreadPool.history p ++
        [Worker.Finished (job (download (ArticleObj 1)))
           (RaisedException (JobError "IOError"));
         Worker.PrintExc (JobError "IOError")] ∧
      ThreadPool.printed p1 = ThreadPool.printed p ++ [JobError "IOError"] ∧
      ThreadPool.step (ThreadPool.Work 0 Worker.TaskDone) p1 = Some p2 ∧
      ThreadPool.history p2 =
        ThreadPool.history p1 ++
        [Worker.Completed (job (download (ArticleObj 1)))] ∧
      Queue.unfinished_tasks (ThreadPool.tasks p) =
        S (Queue.unfinished_tasks (ThreadPool.tasks p2)) ∧
      ThreadPool.workers p2 !! 0%nat =
        Some (Worker.goto
                (Worker.goto (Worker.new 5)
                   (Worker.Executing (job (download (ArticleObj 1)))))
                Worker.Running) ∧
      ThreadPool.wait_completion p2 =
        bool_decide (Queue.unfinished_tasks (ThreadPool.tasks p2) = O) ∧
      ∀ s, pool s = Some p2 → ∀ e' s', join s ≠ Raises e' s'.
Proof.
  eexists. split; [vm_compute; reflexivity|]. split; [reflexivity|].
  apply (job_exception_is_swallowed 1 5
    [ThreadPool.AddTask (job (download (ArticleObj 1)));
     ThreadPool.Work 0 (Worker.Get false)] _ 0
    (Worker.goto (Worker.new 5)
       (Worker.Executing (job (download (ArticleObj 1)))))
    (job (download (ArticleObj 1))) (JobError "IOError")).
  - reflexivity.
  - reflexivity.
  - reflexivity.
Defined.

(** *** A pool without threads *)

(** C10.  [set_papers] on an empty list builds [ThreadPool(0, timeout)].  A
    pool built with zero threads has a queue whose bound is 0, which
    [queue.Queue] takes as no bound: in every state of such a pool, however
    many jobs are pending, [add_task] is not blocked and puts the job at the
    tail. *)
Theorem zero_thread_pool_is_unbounded (k timeout : Z) s ls p jb :
  ThreadPool.run ls (ThreadPool.new 0 timeout) = Some p →
  set_papers [] k s =
    Returns ()
      (with_pool
         (Some (ThreadPool.new 0 (thread_timeout_seconds (config s))))
         (with_papers [] s)) ∧
  Queue.maxsize (ThreadPool.tasks p) = 0 ∧
  Queue.full (ThreadPool.tasks p) = false ∧
  ∃ p', ThreadPool.add_task jb p = Some p' ∧
        ThreadPool.pending p' = ThreadPool.pending p ++ [jb].
Proof.
  intros Hr. split_and!.
  - run_M. simpl. by rewrite Z.mul_0_r.
  - by destruct (reachable_consistent _ _ _ _ Hr) as (_ & -> & _).
  - destruct (reachable_consistent _ _ _ _ Hr) as (_ & Hm & _).
    unfold Queue.full. by rewrite Hm.
  - by eapply unbounded_add_task.
Qed.

Lemma zero_thread_pool_is_unbounded_witness :
  ∃ p p',
    ThreadPool.run [ThreadPool.AddTask (job (download_articles (SourceObj 1)));
                    ThreadPool.AddTask (job (download_articles (SourceObj 2)));
                    ThreadPool.AddTask (job (download_articles (SourceObj 3)))]
      (ThreadPool.new 0 5) = Some p ∧
    length (ThreadPool.pending p) = 3%nat ∧
    ThreadPool.add_task (job (download_articles (SourceObj 4))) p = Some p' ∧
    length (ThreadPool.pending p') = 4%nat ∧
    set_papers [] 1 (new None (mkConfiguration 5 10)) =
      Returns ()
        (with_pool (Some (ThreadPool.new 0 5))
           (with_papers [] (new None (mkConfiguration 5 10)))).
Proof.
  eexists _, _. split; [vm_compute; reflexivity|]. split; [reflexivity|].
  split; [reflexivity|]. split; [reflexivity|].
  exact (proj1 (zero_thread_pool_is_unbounded 1 5
    (new None (mkConfiguration 5 10))
    [ThreadPool.AddTask (job (download_articles (SourceObj 1)));
     ThreadPool.AddTask (job (download_articles (SourceObj 2)));
     ThreadPool.AddTask (job (download_articles (SourceObj 3)))] _
    (job (download_articles (SourceObj 4))) eq_refl)).
Defined.
End Orchestrator.

(** * Further properties of the module *)

(** ** The pool: threads that ended, counters, traces *)

Section PoolCoverage.
Context {Task : Type}.
Implicit Types (p : ThreadPool.t Task) (q : Queue.t Task) (w : Worker.t Task).
Implicit Types (l : ThreadPool.label Task) (job : Task).

Import ThreadPool.

(** The history only grows. *)
Lemma step_history l p p' :
  step l p = Some p' → ∃ os, history p' = history p ++ os.
Proof.
  intros Hs. destruct l as [job|i ev]; simpl in Hs.
  - unfold add_task in Hs.
    destruct (Queue.put job (tasks p)); simplify_eq/=. eauto.
  - destruct (workers p !! i) as [w|]; simplify_eq/=.
    destruct (Worker.run_step ev (tasks p) w) as [[[q w'] os]|];
      simplify_eq/=. eauto.
Qed.

Lemma run_history ls p p' :
  run ls p = Some p' → ∃ os, history p' = history p ++ os.
Proof.
  revert p. induction ls as [|l ls IH]; intros p Hr; simplify_eq/=.
  { exists []. by rewrite app_nil_r. }
  destruct (step l p) as [p1|] eqn:Hs; simplify_eq/=.
  destruct (step_history _ _ _ Hs) as [os1 H1].
  destruct (IH _ Hr) as [os2 H2].
  exists (os1 ++ os2). by rewrite H2, H1, app_assoc.
Qed.

(** A thread that ended takes no step. *)
Lemma terminal_no_step i ev p w :
  workers p !! i = Some w → Worker.terminal w = true →
  step (Work i ev) p = None.
Proof.
  intros Hw Ht. simpl. rewrite Hw. simpl.
  unfold Worker.run_step. unfold Worker.terminal in Ht.
  by destruct (Worker.at_ w), ev.
Qed.

(** When every thread has ended, only submissions can happen: they pile up
    in the queue and on the counter. *)
Lemma ended_frame ls p p' :
  Forall (λ w, Worker.terminal w = true) (workers p) →
  run ls p = Some p' →
  workers p' = workers p ∧
  started p' = started p ∧ finished p' = finished p ∧
  pending p' = pending p ++ added ls ∧
  Queue.unfinished_tasks (tasks p') =
    (Queue.unfinished_tasks (tasks p) + length (added ls))%nat.
Proof.
  revert p. induction ls as [|l ls IH]; intros p Hall Hr.
  - simplify_eq/=. rewrite app_nil_r. split_and!; try done; lia.
  - rewrite run_cons in Hr.
    destruct (step l p) as [p1|] eqn:Hs; [|done]. simpl in Hr.
    destruct l as [job|i ev].
    + simpl in Hs. rewrite add_task_spec in Hs.
      case_bool_decide; simplify_eq.
      eapply IH in Hr as (Hw & Hst & Hfi & Hq & Hu); [|exact Hall].
      rewrite Hw, Hst, Hfi, Hq, Hu.
      unfold started, finished, pending, added. simpl.
      rewrite !omap_app. simpl. rewrite !app_nil_r, <- app_assoc.
      split_and!; try done; lia.
    + destruct (workers p !! i) as [w|] eqn:Hw.
      * rewrite (terminal_no_step i ev p w Hw) in Hs; [done|].
        by eapply (Forall_lookup_1 _ _ _ _ Hall).
      * simpl in Hs. by rewrite Hw in Hs.
Qed.

(** X1.  [except Exception] does not catch an exception that is not an
    [Exception] ([SystemExit], [KeyboardInterrupt]).  When the call of a job
    raises one, the worker dies before line 42: [task_done] is not called
    for that job, the counter and the queue are as they were, and
    [wait_completion] does not return in any later state of the pool. *)
Theorem escaped_exception_blocks_forever (n timeout : Z) ls p i w job name :
  run ls (new n timeout) = Some p →
  workers p !! i = Some w →
  Worker.at_ w = Worker.Executing job →
  ∃ p1,
    step (Work i (Worker.Call (RaisedBaseException name))) p = Some p1 ∧
    workers p1 !! i = Some (Worker.goto w (Worker.Crashed None)) ∧
    Queue.unfinished_tasks (tasks p1) = Queue.unfinished_tasks (tasks p) ∧
    pending p1 = pending p ∧
    ∀ ls' p', run ls' p1 = Some p' → wait_completion p' = false.
Proof.
  intros Hr Hw Hat.
  destruct (reachable_consistent _ _ _ _ Hr) as (Hp & _).
  assert (i < length (workers p))%nat as Hi by (by eapply lookup_lt_Some).
  assert (Hs : step (Work i (Worker.Call (RaisedBaseException name))) p =
               Some {| tasks := tasks p;
                       workers := <[i := Worker.goto w (Worker.Crashed None)]>
                                    (workers p);
                       history := history p ++
                         [Worker.Finished job (RaisedBaseException name)] |}).
  { simpl. rewrite Hw. simpl. unfold Worker.run_step. by rewrite Hat. }
  eexists. split; [exact Hs|]. simpl.
  split; [by apply list_lookup_insert_eq|]. split; [done|].
  split; [done|].
  intros ls' p' Hr'.
  destruct (wait_completion p') eqn:Hwc; [|done]. exfalso.
  assert (consistent p') as Hp'.
  { eapply run_consistent; [exact Hr'|]. by eapply step_consistent. }
  apply (wait_completion_iff p' Hp') in Hwc as (_ & _ & Hl).
  destruct (run_history _ _ _ Hr') as [os Hh].
  unfold lost in Hl. rewrite Hh in Hl. simpl in Hl.
  rewrite !omap_app in Hl. simpl in Hl.
  apply app_eq_nil in Hl as [Hl _]. by apply app_eq_nil in Hl as [_ Hl].
Qed.

(** X2.  Once every worker of a pool has ended (idle exit or death) while
    jobs are still counted, the pool is stuck: no worker is started again,
    later submissions only pile up behind the pending jobs, no job is
    started or finished any more, and [wait_completion] never returns. *)
Theorem ended_workers_never_complete ls p p' :
  Forall (λ w, Worker.terminal w = true) (workers p) →
  wait_completion p = false →
  run ls p = Some p' →
  workers p' = workers p ∧
  started p' = started p ∧ finished p' = finished p ∧
  pending p' = pending p ++ added ls ∧
  wait_completion p' = false.
Proof.
  intros Hall Hwc Hr.
  destruct (ended_frame ls p p' Hall Hr) as (Hw & Hs & Hf & Hq & Hu).
  split_and!; try done.
  unfold wait_completion, Queue.join in *. rewrite Hu.
  by destruct (Queue.unfinished_tasks (tasks p)).
Qed.

(** X3.  [ThreadPool(num_threads, timeout)] with [num_threads <= 0] starts
    no thread.  Whatever is submitted stays pending in submission order,
    nothing is ever started, and [wait_completion] returns only if nothing
    was submitted. *)
Theorem pool_without_threads (n timeout : Z) ls p :
  n ≤ 0 →
  run ls (new n timeout) = Some p →
  workers p = [] ∧ started p = [] ∧ finished p = [] ∧
  pending p = added ls ∧
  (wait_completion p = true ↔ added ls = []).
Proof.
  intros Hn Hr.
  assert (workers (@new Task n timeout) = []) as Hnil.
  { simpl. by replace (Z.to_nat n) with O by lia. }
  destruct (ended_frame ls (new n timeout) p) as (Hw & Hs & Hf & Hq & Hu);
    [by rewrite Hnil|done|].
  rewrite Hnil in Hw. split_and!; try done.
  unfold wait_completion, Queue.join. rewrite Hu. simpl.
  destruct (added ls); simpl; split; done.
Qed.

(** X4.  No more jobs are in the hands of workers than the pool has
    threads: at most [num_threads] jobs are between [get] and [task_done]
    at any time, and none when [num_threads <= 0]. *)
Theorem in_flight_bounded (n timeout : Z) ls p :
  run ls (new n timeout) = Some p →
  (length (in_flight p) ≤ Z.to_nat n)%nat.
Proof.
  intros Hr.
  destruct (reachable_consistent _ _ _ _ Hr) as (_ & _ & <- & _).
  unfold in_flight. induction (workers p) as [|w ws IH]; [done|].
  csimpl. rewrite length_app, holding_at.
  destruct (Worker.at_ w); simpl; lia.
Qed.

(** With a negative timeout every [get] raises [ValueError] before it looks
    at the queue: a worker can only die, and jobs only pile up. *)
Lemma negative_timeout_frame (t : Z) ls p p' :
  t < 0 →
  Forall (λ w, Worker.timeout w = t ∧
               (Worker.at_ w = Worker.Running ∨
                Worker.at_ w = Worker.Crashed (Some ValueError)))
    (workers p) →
  run ls p = Some p' →
  Forall (λ w, Worker.timeout w = t ∧
               (Worker.at_ w = Worker.Running ∨
                Worker.at_ w = Worker.Crashed (Some ValueError)))
    (workers p') ∧
  started p' = started p ∧ finished p' = finished p ∧
  pending p' = pending p ++ added ls ∧
  Queue.unfinished_tasks (tasks p') =
    (Queue.unfinished_tasks (tasks p) + length (added ls))%nat.
Proof.
  intros Ht. revert p. induction ls as [|l ls IH]; intros p Hall Hr.
  - simplify_eq/=. rewrite app_nil_r. split_and!; try done; lia.
  - rewrite run_cons in Hr.
    destruct (step l p) as [p1|] eqn:Hs; [|done]. simpl in Hr.
    destruct l as [job|i ev].
    + simpl in Hs. rewrite add_task_spec in Hs.
      case_bool_decide; simplify_eq.
      eapply IH in Hr as (Hw & Hst & Hfi & Hq & Hu); [|exact Hall].
      rewrite Hst, Hfi, Hq, Hu.
      unfold started, finished, pending, added. simpl.
      rewrite !omap_app. simpl. rewrite !app_nil_r, <- app_assoc.
      split_and!; try done; lia.
    + simpl in Hs. destruct (workers p !! i) as [w|] eqn:Hw; [|done].
      simpl in Hs.
      destruct (Forall_lookup_1 _ _ _ _ Hall Hw) as [Htw Hat].
      unfold Worker.run_step, Queue.get in Hs.
      destruct Hat as [Hat|Hat]; rewrite Hat in Hs; [|by destruct ev].
      destruct ev as [e| |]; try done.
      destruct (Z.ltb_spec (Worker.timeout w) 0); [|lia].
      simplify_eq/=.
      eapply IH in Hr as (Hw' & Hst & Hfi & Hq & Hu).
      * rewrite Hst, Hfi, Hq, Hu.
        unfold started, finished, pending. simpl. rewrite !app_nil_r.
        split_and!; try done.
      * simpl. apply Forall_insert; [done|]. simpl. eauto.
Qed.

(** X5.  With a negative idle timeout no job is ever executed: every
    worker dies on the [ValueError] of its first [get] (or is still about
    to), whatever is submitted stays pending, and [wait_completion] returns
    only if nothing was submitted. *)
Theorem negative_timeout_runs_nothing (n timeout : Z) ls p :
  timeout < 0 →
  run ls (new n timeout) = Some p →
  started p = [] ∧ finished p = [] ∧ pending p = added ls ∧
  Forall (λ w, Worker.at_ w = Worker.Running ∨
               Worker.at_ w = Worker.Crashed (Some ValueError)) (workers p) ∧
  (wait_completion p = true ↔ added ls = []).
Proof.
  intros Ht Hr.
  destruct (negative_timeout_frame timeout ls (new n timeout) p Ht)
    as (Hw & Hs & Hf & Hq & Hu); [|done|].
  { simpl. apply Forall_replicate. eauto. }
  split_and!; try done.
  - eapply Forall_impl; [exact Hw|]. by intros w [_ ?].
  - unfold wait_completion, Queue.join. rewrite Hu. simpl.
    destruct (added ls); simpl; split; done.
Qed.

(** With a timeout that is not negative, a consistent pool keeps its
    workers free of [ValueError]: [get] has no reason to raise it, and
    [task_done] is never called once too often. *)
Lemma step_no_ValueError (t : Z) l p p' :
  0 ≤ t → consistent p →
  Forall (λ w, Worker.timeout w = t ∧
               ∀ e, Worker.at_ w ≠ Worker.Crashed (Some e)) (workers p) →
  step l p = Some p' →
  Forall (λ w, Worker.timeout w = t ∧
               ∀ e, Worker.at_ w ≠ Worker.Crashed (Some e)) (workers p').
Proof.
  intros Ht Hp Hall Hs. destruct l as [job|i ev]; simpl in Hs.
  - unfold add_task in Hs.
    destruct (Queue.put job (tasks p)); by simplify_eq/=.
  - destruct (workers p !! i) as [w|] eqn:Hw; simplify_eq/=.
    destruct (Worker.run_step ev (tasks p) w) as [[[q w'] os]|] eqn:Hr;
      simplify_eq/=.
    destruct (Forall_lookup_1 _ _ _ _ Hall Hw) as [Htw Hne].
    apply Forall_insert; [done|].
    apply run_step_cases in Hr.
    destruct Hr as [(e & job & -> & Hat & Hq & Hm & Hu & -> & ->)
      |[(-> & Hat & Hq & Ht' & -> & -> & ->)
      |[(e & -> & Hat & Ht' & -> & -> & ->)
      |[(job & o & -> & Hat & _ & -> & -> & ->)
      |[(job & name & -> & Hat & -> & -> & ->)
      |[(job & -> & Hat & Hq & Hm & Hu & -> & ->)
      |(job & -> & Hat & Hu & -> & -> & ->)]]]]]]; simpl;
      try (split; [done|]; intros e'; discriminate).
    + lia.
    + destruct (holding_counted i p w job Hp Hw) as [u Hu'].
      { by rewrite holding_at, Hat. }
      rewrite Hu in Hu'. done.
Qed.

(** X6.  With an idle timeout that is not negative, no worker of a pool
    ever dies on a [ValueError]: every worker keeps the timeout it was
    built with, and the only way a worker thread dies is an exception of a
    job that [except Exception] lets through. *)
Theorem workers_never_raise_ValueError (n timeout : Z) ls p :
  0 ≤ timeout →
  run ls (new n timeout) = Some p →
  Forall (λ w, Worker.timeout w = timeout ∧
               ∀ e, Worker.at_ w ≠ Worker.Crashed (Some e)) (workers p).
Proof.
  intros Ht.
  assert (∀ ls p0, consistent p0 →
    Forall (λ w, Worker.timeout w = timeout ∧
                 ∀ e, Worker.at_ w ≠ Worker.Crashed (Some e)) (workers p0) →
    run ls p0 = Some p →
    Forall (λ w, Worker.timeout w = timeout ∧
                 ∀ e, Worker.at_ w ≠ Worker.Crashed (Some e)) (workers p))
    as Hgen.
  { clear ls. induction ls as [|l ls IH]; intros p0 Hc Hall Hr.
    - by simplify_eq/=.
    - rewrite run_cons in Hr.
      destruct (step l p0) as [p1|] eqn:Hs; [|done]. simpl in Hr.
      eapply IH; [|by eapply step_no_ValueError|done].
      by eapply step_consistent. }
  intros Hr. eapply Hgen; [apply new_consistent| |exact Hr].
  simpl. apply Forall_replicate. split; [done|]. intros e. discriminate.
Qed.

(** X7.  [task_done] never fails: in every state of a pool, a worker that
    is past the call of its job can take its [task_done] step, which lowers
    the counter by exactly one, leaves the queue as it is and puts the
    worker back at the top of its loop, whether the call returned or
    raised. *)
Theorem task_done_always_succeeds (n timeout : Z) ls p i w job :
  run ls (new n timeout) = Some p →
  workers p !! i = Some w →
  Worker.at_ w = Worker.AfterCall job →
  ∃ p',
    step (Work i Worker.TaskDone) p = Some p' ∧
    Queue.unfinished_tasks (tasks p) = S (Queue.unfinished_tasks (tasks p')) ∧
    pending p' = pending p ∧
    workers p' = <[i := Worker.goto w Worker.Running]> (workers p) ∧
    completed p' = completed p ++ [job].
Proof.
  intros Hr Hw Hat.
  destruct (reachable_consistent _ _ _ _ Hr) as (Hp & _).
  destruct (holding_counted i p w job Hp Hw) as [u Hu].
  { by rewrite holding_at, Hat. }
  eexists. split.
  { simpl. rewrite Hw. simpl. unfold Worker.run_step, Queue.task_done.
    rewrite Hat, Hu. done. }
  simpl. split_and!; try done.
  unfold completed. simpl. by rewrite omap_app.
Qed.

Local Ltac step_cases Hs :=
  match type of Hs with
  | step ?l ?p = Some _ =>
      destruct l as [job|i ev]; simpl in Hs;
      [ unfold add_task, Queue.put in Hs;
        destruct (Queue.full (tasks p)); simplify_eq/=
      | let w := fresh "w" in
        let Hw := fresh "Hw" in
        let Hr := fresh "Hr" in
        destruct (workers p !! i) as [w|] eqn:Hw; simplify_eq/=;
        destruct (Worker.run_step ev (tasks p) w) as [[[q w'] os]|] eqn:Hr;
        simplify_eq/=;
        apply run_step_cases in Hr;
        destruct Hr as [(e & job & -> & Hat & Hq & Hm & Hu & -> & ->)
          |[(-> & Hat & Hq & Ht' & -> & -> & ->)
          |[(e & -> & Hat & Ht' & -> & -> & ->)
          |[(job & o & -> & Hat & [->|[e ->]] & -> & -> & ->)
          |[(job & name & -> & Hat & -> & -> & ->)
          |[(job & -> & Hat & Hq & Hm & Hu & -> & ->)
          |(job & -> & Hat & Hu & -> & -> & ->)]]]]]] ]
  end.

(** What a step does to the counter. *)
Lemma step_ledger l p p' :
  step l p = Some p' →
  (length (submitted p') + Queue.unfinished_tasks (tasks p) +
     length (completed p) =
   length (submitted p) + Queue.unfinished_tasks (tasks p') +
     length (completed p'))%nat.
Proof.
  intros Hs. step_cases Hs;
    unfold submitted, completed; simpl;
    rewrite ?omap_app, ?length_app; simpl; rewrite ?app_nil_r, ?Hu; lia.
Qed.

Lemma run_ledger ls p p' :
  run ls p = Some p' →
  (length (submitted p') + Queue.unfinished_tasks (tasks p) +
     length (completed p) =
   length (submitted p) + Queue.unfinished_tasks (tasks p') +
     length (completed p'))%nat.
Proof.
  revert p. induction ls as [|l ls IH]; intros p Hr.
  { by simplify_eq/=. }
  rewrite run_cons in Hr.
  destruct (step l p) as [p1|] eqn:Hs; [|done]. simpl in Hr.
  pose proof (step_ledger _ _ _ Hs). pose proof (IH _ Hr). lia.
Qed.

(** X8.  The counter behind [wait_completion] is the number of jobs
    submitted minus the number of [task_done] calls, in every state of a
    pool: one up per [add_task], one down per [task_done], nothing else
    touches it. *)
Theorem counter_is_submitted_minus_done (n timeout : Z) ls p :
  run ls (new n timeout) = Some p →
  length (added ls) =
    (Queue.unfinished_tasks (tasks p) + length (completed p))%nat.
Proof.
  intros Hr.
  destruct (reachable_consistent _ _ _ _ Hr) as (_ & _ & _ & <-).
  pose proof (run_ledger _ _ _ Hr) as H. simpl in H. lia.
Qed.

(** What a step does to the threads: none is added, none that ended comes
    back. *)
Lemma step_live l p p' :
  step l p = Some p' →
  length (workers p') = length (workers p) ∧
  (length (live p') ≤ length (live p))%nat ∧
  ∀ i w, workers p !! i = Some w → Worker.terminal w = true →
         workers p' !! i = Some w.
Proof.
  intros Hs. destruct (step_frame _ _ _ Hs) as (_ & Hlen & _).
  split; [done|]. destruct l as [job|j ev].
  - simpl in Hs. unfold add_task in Hs.
    destruct (Queue.put job (tasks p)); simplify_eq/=. by unfold live.
  - destruct (workers p !! j) as [wj|] eqn:Hwj;
      [|simpl in Hs; by rewrite Hwj in Hs].
    assert (Worker.terminal wj = false) as Hlive.
    { destruct (Worker.terminal wj) eqn:Ht; [|done].
      by rewrite (terminal_no_step j ev p wj Hwj Ht) in Hs. }
    simpl in Hs. rewrite Hwj in Hs. simpl in Hs.
    destruct (Worker.run_step ev (tasks p) wj) as [[[q w'] os]|];
      simplify_eq/=.
    split.
    + pose proof (bind_insert_length
        (λ w : Worker.t Task, if Worker.terminal w then [] else [w])
        (workers p) j wj w' Hwj) as Hl.
      cbv beta in Hl. rewrite Hlive in Hl. unfold live. simpl in *.
      destruct (Worker.terminal w'); simpl in Hl; lia.
    + intros i w Hw Ht. destruct (decide (j = i)) as [->|Hne].
      * rewrite Hwj in Hw. simplify_eq. congruence.
      * by rewrite list_lookup_insert_ne.
Qed.

(** X10.  A pool never gains a thread and never revives one: under every
    schedule the number of worker threads is the same, the number of those
    still alive does not grow, and a thread that has ended, by idle exit or
    by an exception, stays exactly as it ended. *)
Theorem pool_only_shrinks ls p p' :
  run ls p = Some p' →
  length (workers p') = length (workers p) ∧
  (length (live p') ≤ length (live p))%nat ∧
  ∀ i w, workers p !! i = Some w → Worker.terminal w = true →
         workers p' !! i = Some w.
Proof.
  revert p. induction ls as [|l ls IH]; intros p Hr.
  { by simplify_eq/=. }
  rewrite run_cons in Hr.
  destruct (step l p) as [p1|] eqn:Hs; [|done]. simpl in Hr.
  destruct (step_live _ _ _ Hs) as (Hl1 & Hv1 & Ht1).
  destruct (IH _ Hr) as (Hl2 & Hv2 & Ht2).
  split_and!; [lia|lia|]. intros i w Hw Ht. eauto.
Qed.

(** The three steps of one turn of the loop of [run], as equations. *)
Lemma step_get i e p w j rest :
  workers p !! i = Some w →
  Worker.at_ w = Worker.Running →
  0 ≤ Worker.timeout w →
  pending p = j :: rest →
  step (Work i (Worker.Get e)) p =
  Some {| tasks := {| Queue.maxsize := Queue.maxsize (tasks p);
                      Queue.items := rest;
                      Queue.unfinished_tasks :=
                        Queue.unfinished_tasks (tasks p) |};
          workers := <[i := Worker.goto w (Worker.Executing j)]> (workers p);
          history := history p ++ [Worker.Started j] |}.
Proof.
  intros Hw Hat Ht Hq. simpl. rewrite Hw. simpl.
  unfold Worker.run_step, Queue.get. unfold pending in Hq.
  rewrite Hat, Hq. by destruct (Z.ltb_spec (Worker.timeout w) 0); [lia|].
Qed.

Lemma step_call i o p w j :
  workers p !! i = Some w →
  Worker.at_ w = Worker.Executing j →
  (∀ name, o ≠ RaisedBaseException name) →
  step (Work i (Worker.Call o)) p =
  Some {| tasks := tasks p;
          workers := <[i := Worker.goto w (Worker.AfterCall j)]> (workers p);
          history := history p ++
                     Worker.Finished j o ::
                     match o with
                     | RaisedException e => [Worker.PrintExc e]
                     | _ => []
                     end |}.
Proof.
  intros Hw Hat Ho. simpl. rewrite Hw. simpl.
  unfold Worker.run_step. rewrite Hat.
  destruct o as [|e|name]; [done|done|by destruct (Ho name)].
Qed.

Lemma step_task_done i p w j u :
  workers p !! i = Some w →
  Worker.at_ w = Worker.AfterCall j →
  Queue.unfinished_tasks (tasks p) = S u →
  step (Work i Worker.TaskDone) p =
  Some {| tasks := {| Queue.maxsize := Queue.maxsize (tasks p);
                      Queue.items := pending p;
                      Queue.unfinished_tasks := u |};
          workers := <[i := Worker.goto w Worker.Running]> (workers p);
          history := history p ++ [Worker.Completed j] |}.
Proof.
  intros Hw Hat Hu. simpl. rewrite Hw. simpl.
  unfold Worker.run_step, Queue.task_done. by rewrite Hat, Hu.
Qed.

Lemma run_step_eq l ls p p1 :
  step l p = Some p1 → run (l :: ls) p = run ls p1.
Proof. intros Hs. by rewrite run_cons, Hs. Qed.

Lemma serve_cons i (out : Task → outcome) j jobs :
  @works_labels Task (serve i out (j :: jobs)) =
  Work i (Worker.Get false) :: Work i (Worker.Call (out j)) ::
  Work i Worker.TaskDone :: works_labels (serve i out jobs).
Proof. done. Qed.

(** One worker that is alive and idle is enough to work off the queue: it
    takes the pending jobs one by one, in order, and after the last
    [task_done] the counter is down by their number. *)
Lemma serve_drains i (out : Task → outcome) jobs p w c :
  (∀ j name, out j ≠ RaisedBaseException name) →
  workers p !! i = Some w →
  Worker.at_ w = Worker.Running →
  0 ≤ Worker.timeout w →
  pending p = jobs →
  Queue.unfinished_tasks (tasks p) = (length jobs + c)%nat →
  ∃ p',
    run (works_labels (serve i out jobs)) p = Some p' ∧
    workers p' = workers p ∧
    pending p' = [] ∧
    Queue.unfinished_tasks (tasks p') = c ∧
    started p' = started p ++ jobs ∧
    finished p' = finished p ++ ((λ j, (j, out j)) <$> jobs).
Proof.
  intros Hout. revert p.
  induction jobs as [|j jobs IH]; intros p Hw Hat Ht Hq Hu.
  { exists p. rewrite !app_nil_r. by split_and!. }
  assert (i < length (workers p))%nat as Hi by (by eapply lookup_lt_Some).
  assert (Worker.goto
            (Worker.goto (Worker.goto w (Worker.Executing j))
               (Worker.AfterCall j)) Worker.Running = w) as Hback.
  { destruct w as [t a]. simpl in *. by subst. }
  simpl in Hu. rewrite serve_cons.
  erewrite run_step_eq; [|by eapply step_get].
  erewrite run_step_eq;
    [|eapply step_call; [by apply list_lookup_insert_eq|done|apply Hout]].
  erewrite run_step_eq;
    [|eapply step_task_done;
       [simpl; apply list_lookup_insert_eq; by rewrite length_insert
       |done|exact Hu]].
  cbn [workers tasks history pending Queue.items Queue.maxsize
       Queue.unfinished_tasks Worker.goto Worker.timeout Worker.at_].
  rewrite !list_insert_insert_eq, Hback, list_insert_id by done.
  match goal with |- ∃ p', run _ ?p3 = _ ∧ _ => set (p3' := p3) end.
  destruct (IH p3') as (p' & Hrun & Hws & Hpe & Hun & Hst & Hfi);
    [done..|].
  exists p'. split; [done|].
  rewrite Hws, Hpe, Hun, Hst, Hfi.
  unfold started, finished, p3'. simpl.
  rewrite !omap_app. simpl.
  assert (∀ A (f : Worker.obs Task → option A),
            (∀ e, f (Worker.PrintExc e) = None) →
            omap f match out j with
                   | RaisedException e => [Worker.PrintExc e]
                   | _ => []
                   end = []) as Hnone.
  { intros A f Hf. destruct (out j); csimpl; by rewrite ?Hf. }
  rewrite !Hnone by done.
  rewrite !app_nil_r, <- !app_assoc. done.
Qed.
End PoolCoverage.

(** *** The further properties on concrete schedules *)

Section PoolCoverageRuns.
Import ThreadPool.

Lemma escaped_exception_blocks_forever_witness :
  ∃ p : t nat,
    run [AddTask 1%nat; Work 0 (Worker.Get false)] (new 1 5) = Some p ∧
    ∃ p1 : t nat,
      step (Work 0 (Worker.Call (RaisedBaseException "SystemExit"))) p =
        Some p1 ∧
      workers p1 !! 0%nat =
        Some (Worker.goto
                (Worker.goto (Worker.new 5) (Worker.Executing 1%nat))
                (Worker.Crashed None)) ∧
      Queue.unfinished_tasks (tasks p1) = Queue.unfinished_tasks (tasks p) ∧
      pending p1 = pending p ∧
      ∀ ls' (p' : t nat), run ls' p1 = Some p' → wait_completion p' = false.
Proof.
  eexists. split; [vm_compute; reflexivity|].
  apply (escaped_exception_blocks_forever 1 5
           [AddTask 1%nat; Work 0 (Worker.Get false)] _ 0
           (Worker.goto (Worker.new 5) (Worker.Executing 1%nat)) 1%nat
           "SystemExit").
  - reflexivity.
  - reflexivity.
  - reflexivity.
Defined.

Lemma ended_workers_never_complete_witness :
  ∃ p p' : t nat,
    run [Work 0 (Worker.Get true); Work 1 (Worker.Get true); AddTask 1%nat]
      (new 2 5) = Some p ∧
    run [AddTask 2%nat] p = Some p' ∧
    workers p' = workers p ∧
    started p' = started p ∧ finished p' = finished p ∧
    pending p' = pending p ++ added [AddTask 2%nat] ∧
    wait_completion p' = false.
Proof.
  eexists _, _. split; [vm_compute; reflexivity|]. split; [reflexivity|].
  apply (ended_workers_never_complete [AddTask 2%nat]).
  - repeat constructor.
  - reflexivity.
  - reflexivity.
Defined.

Lemma pool_without_threads_witness :
  ∃ p : t nat,
    run [AddTask 1%nat; AddTask 2%nat] (new 0 5) = Some p ∧
    workers p = [] ∧ started p = [] ∧ finished p = [] ∧
    pending p = added [AddTask 1%nat; AddTask 2%nat] ∧
    (wait_completion p = true ↔ added [AddTask 1%nat; AddTask 2%nat] = []).
Proof.
  eexists. split; [vm_compute; reflexivity|].
  apply (pool_without_threads 0 5 [AddTask 1%nat; AddTask 2%nat]).
  - lia.
  - reflexivity.
Defined.

Lemma in_flight_bounded_witness :
  ∃ p : t nat,
    run [AddTask 1%nat; AddTask 2%nat; Work 0 (Worker.Get false);
         Work 1 (Worker.Get false); AddTask 3%nat] (new 2 5) = Some p ∧
    in_flight p = [1%nat; 2%nat] ∧
    (length (in_flight p) ≤ Z.to_nat 2)%nat.
Proof.
  eexists. split; [vm_compute; reflexivity|]. split; [reflexivity|].
  apply (in_flight_bounded 2 5
           [AddTask 1%nat; AddTask 2%nat; Work 0 (Worker.Get false);
            Work 1 (Worker.Get false); AddTask 3%nat]).
  reflexivity.
Defined.

Lemma negative_timeout_runs_nothing_witness :
  ∃ p : t nat,
    run [AddTask 1%nat; Work 0 (Worker.Get false)] (new 1 (-1)) = Some p ∧
    started p = [] ∧ finished p = [] ∧
    pending p = added [AddTask 1%nat; Work 0 (Worker.Get false)] ∧
    Forall (λ w, Worker.at_ w = Worker.Running ∨
                 Worker.at_ w = Worker.Crashed (Some ValueError))
      (workers p) ∧
    (wait_completion p = true ↔
     added [AddTask 1%nat; Work 0 (Worker.Get false)] = []).
Proof.
  eexists. split; [vm_compute; reflexivity|].
  apply (negative_timeout_runs_nothing 1 (-1)
           [AddTask 1%nat; Work 0 (Worker.Get false)]).
  - lia.
  - reflexivity.
Defined.

Lemma workers_never_raise_ValueError_witness :
  ∃ p : t nat,
    run [AddTask 1%nat; Work 0 (Worker.Get false);
         Work 0 (Worker.Call (RaisedException (JobError "IOError")));
         Work 0 Worker.TaskDone; Work 0 (Worker.Get true)] (new 1 5) =
      Some p ∧
    Forall (λ w, Worker.timeout w = 5 ∧
                 ∀ e, Worker.at_ w ≠ Worker.Crashed (Some e)) (workers p).
Proof.
  eexists. split; [vm_compute; reflexivity|].
  apply (workers_never_raise_ValueError 1 5
           [AddTask 1%nat; Work 0 (Worker.Get false);
            Work 0 (Worker.Call (RaisedException (JobError "IOError")));
            Work 0 Worker.TaskDone; Work 0 (Worker.Get true)]).
  - lia.
  - reflexivity.
Defined.

Lemma task_done_always_succeeds_witness :
  ∃ p : t nat,
    run [AddTask 1%nat; Work 0 (Worker.Get false);
         Work 0 (Worker.Call Returned)] (new 1 5) = Some p ∧
    ∃ p' : t nat,
      step (Work 0 Worker.TaskDone) p = Some p' ∧
      Queue.unfinished_tasks (tasks p) =
        S (Queue.unfinished_tasks (tasks p')) ∧
      pending p' = pending p ∧
      workers p' =
        <[0%nat := Worker.goto
             (Worker.goto (Worker.goto (Worker.new 5)
                             (Worker.Executing 1%nat))
                (Worker.AfterCall 1%nat))
             Worker.Running]> (workers p) ∧
      completed p' = completed p ++ [1%nat].
Proof.
  eexists. split; [vm_compute; reflexivity|].
  apply (task_done_always_succeeds 1 5
           [AddTask 1%nat; Work 0 (Worker.Get false);
            Work 0 (Worker.Call Returned)] _ 0
           (Worker.goto (Worker.goto (Worker.new 5) (Worker.Executing 1%nat))
              (Worker.AfterCall 1%nat)) 1%nat).
  - reflexivity.
  - reflexivity.
  - reflexivity.
Defined.

Lemma counter_is_submitted_minus_done_witness :
  ∃ p : t nat,
    run [AddTask 1%nat; AddTask 2%nat; Work 0 (Worker.Get false);
         Work 0 (Worker.Call Returned); Work 0 Worker.TaskDone]
      (new 2 5) = Some p ∧
    Queue.unfinished_tasks (tasks p) = 1%nat ∧ completed p = [1%nat] ∧
    length (added [AddTask 1%nat; AddTask 2%nat; Work 0 (Worker.Get false);
                   Work 0 (Worker.Call Returned); Work 0 Worker.TaskDone]) =
      (Queue.unfinished_tasks (tasks p) + length (completed p))%nat.
Proof.
  eexists. split; [vm_compute; reflexivity|]. split; [reflexivity|].
  split; [reflexivity|].
  apply (counter_is_submitted_minus_done 2 5
           [AddTask 1%nat; AddTask 2%nat; Work 0 (Worker.Get false);
            Work 0 (Worker.Call Returned); Work 0 Worker.TaskDone]).
  reflexivity.
Defined.

Lemma pool_only_shrinks_witness :
  ∃ p' : t nat,
    run [Work 0 (Worker.Get true); AddTask 1%nat;
         Work 1 (Worker.Get false)] (new 2 5) = Some p' ∧
    length (live p') = 1%nat ∧
    length (workers p') = length (workers (new 2 5 : t nat)) ∧
    (length (live p') ≤ length (live (new 2 5 : t nat)))%nat ∧
    ∀ i w, workers (new 2 5 : t nat) !! i = Some w →
           Worker.terminal w = true → workers p' !! i = Some w.
Proof.
  eexists. split; [vm_compute; reflexivity|]. split; [reflexivity|].
  apply (pool_only_shrinks
           [Work 0 (Worker.Get true); AddTask 1%nat;
            Work 1 (Worker.Get false)] (new 2 5)).
  reflexivity.
Defined.

Lemma add_task_within_bound_witness :
  ∃ p : t nat,
    run [AddTask 1%nat; Work 0 (Worker.Get false)] (new 2 5) = Some p ∧
    is_Some (add_task 2%nat p).
Proof.
  eexists. split; [vm_compute; reflexivity|].
  apply (add_task_within_bound 2 5
           [AddTask 1%nat; Work 0 (Worker.Get false)]).
  - reflexivity.
  - simpl. lia.
Defined.
End PoolCoverageRuns.

(** ** The orchestrator: batches from end to end *)

Section OrchestratorCoverage.
Import NewsPool.
Implicit Types (s : NewsPool.t) (p : ThreadPool.t Task).

Local Arguments ThreadPool.step : simpl never.

(** A schedule of the pool is a sequence of worker steps of the
    orchestrator that holds it. *)
Lemma works_of_run evs s p p' :
  pool s = Some p →
  ThreadPool.run (ThreadPool.works_labels evs) p = Some p' →
  works evs s = Some (with_pool (Some p') s).
Proof.
  revert s p. induction evs as [|[i ev] evs IH]; intros s p Hp Hr.
  - simpl in Hr. injection Hr as <-. simpl. f_equal.
    destruct s; simpl in *; by subst.
  - unfold ThreadPool.works_labels in Hr. rewrite fmap_cons, run_cons in Hr.
    simpl in Hr.
    destruct (ThreadPool.step (ThreadPool.Work i ev) p) as [p1|] eqn:Hs;
      [|done].
    simpl in Hr. cbn [works]. unfold work. rewrite Hp. simpl. rewrite Hs.
    simpl. by rewrite (IH (with_pool (Some p1) s) p1 eq_refl Hr).
Qed.

(** Submissions alone: they go to the tail of the queue and onto the
    counter, and no worker is touched. *)
Lemma run_add_tasks (js : list Task) p p' :
  ThreadPool.run (ThreadPool.AddTask <$> js) p = Some p' →
  ThreadPool.workers p' = ThreadPool.workers p ∧
  ThreadPool.pending p' = ThreadPool.pending p ++ js ∧
  Queue.unfinished_tasks (ThreadPool.tasks p') =
    (Queue.unfinished_tasks (ThreadPool.tasks p) + length js)%nat ∧
  ThreadPool.history p' = ThreadPool.history p ++ (Worker.Submitted <$> js).
Proof.
  revert p. induction js as [|j js IH]; intros p Hr.
  - simpl in Hr. injection Hr as <-. rewrite !app_nil_r.
    split_and!; try done; simpl; lia.
  - rewrite fmap_cons, run_cons in Hr.
    unfold ThreadPool.step in Hr. rewrite add_task_spec in Hr.
    case_bool_decide; [done|]. simpl in Hr.
    destruct (IH _ Hr) as (Hw & Hq & Hu & Hh).
    rewrite Hw, Hq, Hu, Hh. unfold ThreadPool.pending. simpl.
    rewrite <- !app_assoc. split_and!; try done; lia.
Qed.

(** The pool [set_papers] leaves behind, before any worker has moved. *)
Lemma set_papers_fresh_pool (paper_list : list Source) (k : Z) s :
  ∃ p,
    set_papers paper_list k s =
      Returns () (with_pool (Some p) (with_papers paper_list s)) ∧
    ThreadPool.workers p =
      replicate (Z.to_nat (k * Z.of_nat (length paper_list)))
        (Worker.new (thread_timeout_seconds (config s))) ∧
    ThreadPool.pending p =
      (λ paper, job (download_articles paper)) <$> paper_list ∧
    Queue.unfinished_tasks (ThreadPool.tasks p) = length paper_list ∧
    ThreadPool.history p =
      Worker.Submitted <$>
        ((λ paper, job (download_articles paper)) <$> paper_list).
Proof.
  destruct (set_papers_pool paper_list k s) as (p & Hset & Hrun & _ & _).
  exists p. split; [done|].
  rewrite (list_fmap_compose
             (λ paper, job (download_articles paper)) ThreadPool.AddTask)
    in Hrun.
  destruct (run_add_tasks _ _ _ Hrun) as (Hw & Hq & Hu & Hh).
  rewrite Hw, Hq, Hu, Hh. simpl. by rewrite length_fmap.
Qed.

(** X12.  With no thread per source ([threads_per_source <= 0]) a batch
    that is not empty can never be joined: [set_papers] returns, but its
    pool has no worker, no worker step exists, and [join] blocks in every
    state that follows. *)
Theorem batch_without_threads_never_joins (paper_list : list Source) (k : Z) s :
  k ≤ 0 →
  (0 < length paper_list)%nat →
  ∃ s1,
    set_papers paper_list k s = Returns () s1 ∧
    (∀ i ev, work i ev s1 = None) ∧
    ∀ evs s2, works evs s1 = Some s2 → join s2 = Blocks s2.
Proof.
  intros Hk Hne.
  destruct (set_papers_fresh_pool paper_list k s)
    as (p & Hset & Hw & Hq & Hu & Hh).
  assert (ThreadPool.workers p = []) as Hnil.
  { rewrite Hw. by replace (Z.to_nat _) with O by nia. }
  eexists. split; [exact Hset|]. split.
  - intros i ev. unfold work. simpl.
    unfold ThreadPool.step. by rewrite Hnil.
  - intros evs s2 Hworks.
    destruct (works_run evs (with_pool (Some p) (with_papers paper_list s))
                s2 p eq_refl Hworks) as (p2 & Hr2 & ->).
    eapply ended_frame in Hr2 as (_ & _ & _ & _ & Hu2);
      [|by rewrite Hnil].
    erewrite join_with_pool by reflexivity.
    unfold ThreadPool.wait_completion, Queue.join. rewrite Hu2, Hu.
    destruct paper_list; [simpl in Hne; lia|done].
Qed.

(** X13.  [join] is not idempotent: once a [join] has returned, the batch
    is gone, and a second [join] without a new batch raises
    [AttributeError] and changes nothing. *)
Theorem join_twice_raises s s' :
  join s = Returns () s' →
  papers s' = [] ∧ articles s' = PyList [] ∧ pool s' = None ∧
  join s' = Raises AttributeError s'.
Proof.
  intros Hj. destruct (pool s) as [p|] eqn:Hp.
  - rewrite (join_with_pool s p Hp) in Hj.
    destruct (ThreadPool.wait_completion p); [|done].
    injection Hj as <-. by split_and!.
  - rewrite (join_without_pool s Hp) in Hj. by destruct (articles s).
Qed.

(** X14.  An empty batch joins at once: [set_papers] on the empty list
    builds a pool with no thread and no job, and the [join] that follows
    returns without waiting, for every [threads_per_source]. *)
Theorem empty_batch_joins_at_once (k : Z) s :
  ∃ s1,
    set_papers [] k s = Returns () s1 ∧
    papers s1 = [] ∧
    join s1 =
      Returns () {| papers := []; articles := PyList []; pool := None;
                    config := config s; stdout := stdout s |}.
Proof.
  destruct (set_papers_fresh_pool [] k s) as (p & Hset & _ & _ & Hu & _).
  eexists. split; [exact Hset|]. split; [done|].
  erewrite join_with_pool by reflexivity.
  unfold ThreadPool.wait_completion, Queue.join. by rewrite Hu.
Qed.

(** X15.  [set_papers] overwrites whatever batch was there: its result
    depends on the object only through [config] (and the fields it does not
    touch), not on the previous [papers] or [pool].  Called on an object
    whose earlier batch was not joined, it gives the same pool and papers
    as on a fresh one; the earlier pool is no longer referenced, so [join]
    will not wait for its jobs. *)
Theorem set_papers_overwrites_batch (paper_list : list Source) (k : Z) s s' :
  config s' = config s →
  articles s' = articles s →
  stdout s' = stdout s →
  set_papers paper_list k s' = set_papers paper_list k s.
Proof.
  intros Hc Ha Ho.
  destruct (set_papers_pool paper_list k s) as (p & -> & Hrun & _).
  destruct (set_papers_pool paper_list k s') as (p' & -> & Hrun' & _).
  rewrite Hc, Hrun in Hrun'. injection Hrun' as <-.
  f_equal. unfold with_pool, with_papers. simpl. by rewrite Hc, Ha, Ho.
Qed.

Lemma batch_without_threads_never_joins_witness :
  ∃ s1,
    set_papers [SourceObj 1] 0 (new None (mkConfiguration 5 10)) =
      Returns () s1 ∧
    (∀ i ev, work i ev s1 = None) ∧
    ∀ evs s2, works evs s1 = Some s2 → join s2 = Blocks s2.
Proof.
  apply (batch_without_threads_never_joins [SourceObj 1] 0
           (new None (mkConfiguration 5 10))).
  - lia.
  - simpl. lia.
Defined.

Lemma join_twice_raises_witness :
  join (with_pool (Some (ThreadPool.new 0 5))
          (new None (mkConfiguration 5 10))) =
    Returns () (new None (mkConfiguration 5 10)) ∧
  papers (new None (mkConfiguration 5 10)) = [] ∧
  articles (new None (mkConfiguration 5 10)) = PyList [] ∧
  pool (new None (mkConfiguration 5 10)) = None ∧
  join (new None (mkConfiguration 5 10)) =
    Raises AttributeError (new None (mkConfiguration 5 10)).
Proof.
  split; [reflexivity|].
  apply (join_twice_raises
           (with_pool (Some (ThreadPool.new 0 5))
              (new None (mkConfiguration 5 10)))
           (new None (mkConfiguration 5 10))).
  reflexivity.
Defined.

Lemma set_papers_overwrites_batch_witness :
  set_papers [SourceObj 1] 1
    (with_pool (Some (ThreadPool.new 3 5))
       (with_papers [SourceObj 7; SourceObj 8; SourceObj 9]
          (new None (mkConfiguration 5 10)))) =
  set_papers [SourceObj 1] 1 (new None (mkConfiguration 5 10)).
Proof.
  apply (set_papers_overwrites_batch [SourceObj 1] 1
           (new None (mkConfiguration 5 10))
           (with_pool (Some (ThreadPool.new 3 5))
              (with_papers [SourceObj 7; SourceObj 8; SourceObj 9]
                 (new None (mkConfiguration 5 10))))).
  - reflexivity.
  - reflexivity.
  - reflexivity.
Defined.

End OrchestratorCoverage.

(** ** The pool: schedules put together, and how a batch gets done *)

Section PoolProgress.
Context {Task : Type}.
Implicit Types (p : ThreadPool.t Task) (q : Queue.t Task) (w : Worker.t Task).
Implicit Types (l : ThreadPool.label Task) (job : Task).

Import ThreadPool.

Lemma run_app ls1 ls2 p :
  run (ls1 ++ ls2) p = p' ← run ls1 p; run ls2 p'.
Proof.
  revert p. induction ls1 as [|l ls1 IH]; intros p; [done|].
  rewrite <- app_comm_cons, !run_cons.
  destruct (step l p) as [p1|]; simpl; [apply IH | done].
Qed.

Lemma run_app_Some ls1 ls2 p p1 p2 :
  run ls1 p = Some p1 → run ls2 p1 = Some p2 → run (ls1 ++ ls2) p = Some p2.
Proof. intros H1 H2. by rewrite run_app, H1. Qed.

Lemma added_app (ls1 ls2 : list (label Task)) :
  added (ls1 ++ ls2) = added ls1 ++ added ls2.
Proof. apply omap_app. Qed.

Lemma works_labels_cons i ev evs :
  @works_labels Task ((i, ev) :: evs) = Work i ev :: works_labels evs.
Proof. done. Qed.

Lemma works_labels_app evs1 evs2 :
  @works_labels Task (evs1 ++ evs2) = works_labels evs1 ++ works_labels evs2.
Proof. apply fmap_app. Qed.

Lemma works_labels_work evs :
  Forall (λ l, is_work l = true) (@works_labels Task evs).
Proof. induction evs as [|[i ev] evs IH]; by constructor. Qed.

(** A submission goes through when the queue has no bound, or when fewer
    jobs than its bound were submitted so far; what the workers did in
    between does not matter. *)
Lemma add_task_enabled (n timeout : Z) ls p job :
  run ls (new n timeout) = Some p →
  n ≤ 0 ∨ Z.of_nat (length (added ls)) < n →
  is_Some (add_task job p).
Proof.
  intros Hr Hb.
  destruct (reachable_consistent _ _ _ _ Hr) as ([Hf _ _ _] & Hm & _ & Hsub).
  rewrite add_task_spec, Hm. case_bool_decide as Hfull; [|eauto].
  exfalso. destruct Hb as [Hb|Hb]; [lia|].
  rewrite <- Hsub, <- Hf, length_app in Hb. lia.
Qed.



Lemma bind_nonempty {A B} (f : A → list B) (xs : list A) :
  xs ≫= f ≠ [] → ∃ i x, xs !! i = Some x ∧ f x ≠ [].
Proof.
  induction xs as [|x xs IH]; [done|]. csimpl. intros Hne.
  destruct (f x) as [|b bs] eqn:Hx.
  - destruct (IH Hne) as (i & y & Hi & Hy). by exists (S i), y.
  - exists O, x. by rewrite Hx.
Qed.

Lemma bind_nil_lookup {A B} (f : A → list B) (xs : list A) i x :
  xs ≫= f = [] → xs !! i = Some x → f x = [].
Proof.
  revert i. induction xs as [|y xs IH]; intros i; [done|]. csimpl.
  intros [Hy Hxs]%app_eq_nil. destruct i as [|i]; simpl.
  - by intros [= <-].
  - by apply IH.
Qed.

(** The workers that hold a job can all hand it back: each call ends as
    [out] says and is followed by [task_done].  The queue is not touched,
    and every worker that was alive is then at the top of its loop. *)
Lemma finish_held (out : Task → outcome) m p :
  (∀ j name, out j ≠ RaisedBaseException name) →
  length (in_flight p) = m →
  consistent p →
  ∃ evs p',
    run (works_labels evs) p = Some p' ∧
    in_flight p' = [] ∧ pending p' = pending p ∧ lost p' = lost p ∧
    ∀ i w, workers p !! i = Some w → Worker.terminal w = false →
           workers p' !! i = Some (Worker.goto w Worker.Running).
Proof.
  intros Hout. revert p. induction m as [|m IH]; intros p Hlen Hp.
  { exists [], p. apply length_zero_iff_nil in Hlen. split_and!; try done.
    intros i w Hw Hterm. rewrite Hw. f_equal.
    pose proof (bind_nil_lookup Worker.holding _ i w Hlen Hw) as Hh.
    rewrite holding_at in Hh. unfold Worker.terminal in Hterm.
    destruct w as [tw [| | | |]]; simpl in *; done. }
  destruct (bind_nonempty Worker.holding (workers p)) as (j & w & Hw & Hh).
  { unfold in_flight in Hlen. by destruct (workers p ≫= Worker.holding). }
  assert (j < length (workers p))%nat as Hj by (by eapply lookup_lt_Some).
  assert (∀ p2 : t Task,
            consistent p2 → length (in_flight p2) = m →
            pending p2 = pending p → lost p2 = lost p →
            workers p2 = <[j := Worker.goto w Worker.Running]> (workers p) →
            ∀ evs0, run (works_labels evs0) p = Some p2 →
            ∃ evs p',
              run (works_labels evs) p = Some p' ∧
              in_flight p' = [] ∧ pending p' = pending p ∧
              lost p' = lost p ∧
              ∀ i w, workers p !! i = Some w →
                     Worker.terminal w = false →
                     workers p' !! i = Some (Worker.goto w Worker.Running))
    as Hnext.
  { intros p2 Hp2 Hlen2 Hq2 Hl2 Hws2 evs0 Hrun0.
    destruct (IH p2 Hlen2 Hp2) as (evs & p' & Hrun & Hif & Hq & Hl & Hlive).
    exists (evs0 ++ evs), p'. split_and!.
    - rewrite works_labels_app. by eapply run_app_Some.
    - done.
    - by rewrite Hq.
    - by rewrite Hl.
    - intros i wi Hwi Hterm. destruct (decide (i = j)) as [->|Hne].
      + rewrite Hw in Hwi. injection Hwi as <-.
        apply (Hlive j (Worker.goto w Worker.Running)); [|done].
        rewrite Hws2. by apply list_lookup_insert_eq.
      + apply Hlive; [|done]. rewrite Hws2.
        by rewrite list_lookup_insert_ne. }
  assert (∀ w' : Worker.t Task,
            Worker.holding w' = [] → Worker.holding w ≠ [] →
            length (in_flight p) = S m →
            length (<[j := w']> (workers p) ≫= Worker.holding) = m) as Hless.
  { intros w' Hw' Hne Hl.
    pose proof (bind_insert_length Worker.holding (workers p) j w w' Hw) as H.
    rewrite Hw' in H. unfold in_flight in Hl. rewrite holding_at in H, Hne.
    destruct (Worker.at_ w); simpl in *; try done; lia. }
  pose proof Hh as Hh'. rewrite holding_at in Hh'.
  destruct (Worker.at_ w) as [|job|job| |c] eqn:Hat; try done.
  - destruct (holding_counted j p w job Hp Hw) as [u Hu].
    { by rewrite holding_at, Hat. }
    pose proof (step_call j (out job) p w job Hw Hat (Hout job)) as Hs1.
    match type of Hs1 with _ = Some ?x => set (p1 := x) in * end.
    assert (workers p1 !! j = Some (Worker.goto w (Worker.AfterCall job)))
      as Hw1 by (by apply list_lookup_insert_eq).
    pose proof (step_task_done j p1 _ job u Hw1 eq_refl Hu) as Hs2.
    match type of Hs2 with _ = Some ?x => set (p2 := x) in * end.
    apply (Hnext p2) with
      (evs0 := [(j, Worker.Call (out job)); (j, Worker.TaskDone)]).
    + eauto using step_consistent.
    + unfold in_flight, p2, p1. cbn [workers].
      rewrite list_insert_insert_eq. by apply Hless.
    + done.
    + unfold lost, p2, p1. cbn [history]. rewrite !omap_app.
      destruct (out job) as [|e|name] eqn:Ho; [| |by destruct (Hout job name)];
        simpl; by rewrite !app_nil_r.
    + unfold p2, p1. cbn [workers]. by rewrite list_insert_insert_eq.
    + rewrite !works_labels_cons.
      erewrite run_step_eq by exact Hs1.
      by erewrite run_step_eq by exact Hs2.
  - destruct (holding_counted j p w job Hp Hw) as [u Hu].
    { by rewrite holding_at, Hat. }
    pose proof (step_task_done j p w job u Hw Hat Hu) as Hs2.
    match type of Hs2 with _ = Some ?x => set (p2 := x) in * end.
    apply (Hnext p2) with (evs0 := [(j, Worker.TaskDone)]).
    + eauto using step_consistent.
    + unfold in_flight, p2. cbn [workers]. by apply Hless.
    + done.
    + unfold lost, p2. cbn [history]. rewrite !omap_app. simpl.
      by rewrite app_nil_r.
    + done.
    + rewrite !works_labels_cons. by erewrite run_step_eq by exact Hs2.
Qed.

(** A pool in which some worker is alive, and in which no job was lost,
    can get everything done: the workers that hold a job hand it back,
    then the live worker works off the queue. *)
Lemma live_worker_finishes (out : Task → outcome) p i w :
  (∀ j name, out j ≠ RaisedBaseException name) →
  consistent p →
  workers p !! i = Some w →
  Worker.terminal w = false →
  0 ≤ Worker.timeout w →
  lost p = [] →
  ∃ evs p',
    run (works_labels evs) p = Some p' ∧ wait_completion p' = true.
Proof.
  intros Hout Hp Hw Hterm Ht Hlost.
  destruct (finish_held out (length (in_flight p)) p Hout eq_refl Hp)
    as (evs1 & p1 & Hrun1 & Hif & Hq & Hl & Hlive).
  assert (consistent p1) as Hp1 by (by eapply run_consistent).
  destruct (serve_drains i out (pending p1) p1
              (Worker.goto w Worker.Running) O Hout)
    as (p2 & Hrun2 & _ & _ & Hu2 & _); [by apply Hlive|done|done|done| |].
  { destruct Hp1 as [_ _ Hc _]. rewrite Hc, Hif, Hl, Hlost.
    rewrite !length_app. simpl. lia. }
  exists (evs1 ++ serve i out (pending p1)), p2. split.
  - rewrite works_labels_app. by eapply run_app_Some.
  - unfold wait_completion, Queue.join. by rewrite Hu2.
Qed.
End PoolProgress.

(** ** The orchestrator with the workers running *)

Section Interleaving.
Import NewsPool.
Implicit Types (s : NewsPool.t) (p : ThreadPool.t Task).

Local Arguments ThreadPool.step : simpl never.

Lemma with_pool_same s p : pool s = Some p → with_pool (Some p) s = s.
Proof. intros Hp. destruct s; simpl in *; by subst. Qed.

(** What [yield] does is a schedule of the pool made of worker steps. *)
Lemma interleave_reaches evs s p :
  pool s = Some p →
  ∃ ls p',
    foldl (λ s ie, default s (work ie.1 ie.2 s)) s evs =
      with_pool (Some p') s ∧
    ThreadPool.run ls p = Some p' ∧
    Forall (λ l, ThreadPool.is_work l = true) ls.
Proof.
  revert s p. induction evs as [|[i ev] evs IH]; intros s p Hp.
  { exists [], p. by rewrite with_pool_same. }
  cbn [foldl fst snd]. unfold work at 2. rewrite Hp. simpl.
  destruct (ThreadPool.step (ThreadPool.Work i ev) p) as [p1|] eqn:Hs; simpl.
  - destruct (IH (with_pool (Some p1) s) p1 eq_refl) as (ls & p' & Hf & Hr & Hw).
    exists (ThreadPool.Work i ev :: ls), p'. split_and!.
    + by rewrite Hf.
    + by rewrite run_cons, Hs.
    + by constructor.
  - destruct (IH s p Hp) as (ls & p' & Hf & Hr & Hw). by exists ls, p'.
Qed.

Lemma pool_add_task_returns f s p p' :
  pool s = Some p →
  ThreadPool.add_task (job f) p = Some p' →
  pool_add_task f s = Returns () (with_pool (Some p') s).
Proof.
  intros Hp Ha.
  cbv [pool_add_task mbind M_bind gets modify]. by rewrite Hp, Ha.
Qed.

(** The loop of [set_papers] with the workers running: every [add_task]
    goes through, and the pool at the end is a state of the pool that was
    built, reached by a schedule whose submissions are the jobs of the
    loop, in order. *)
Lemma loop_reaches (n timeout : Z) sched (l : list Source) s p ls0 :
  pool s = Some p →
  ThreadPool.run ls0 (ThreadPool.new n timeout) = Some p →
  n ≤ 0 ∨ Z.of_nat (length (ThreadPool.added ls0) + length l) ≤ n →
  ∃ ls p',
    for_each_interleaved sched l
      (λ paper, pool_add_task (download_articles paper)) s =
      Returns () (with_pool (Some p') s) ∧
    ThreadPool.run ls (ThreadPool.new n timeout) = Some p' ∧
    ThreadPool.added ls =
      ThreadPool.added ls0 ++
      ((λ paper, job (download_articles paper)) <$> l).
Proof.
  revert sched s p ls0.
  induction l as [|paper l IH]; intros sched s p ls0 Hp Hr0 Hb.
  - destruct (interleave_reaches (concat sched) s p Hp)
      as (ls & p' & Hf & Hr & Hw).
    exists (ls0 ++ ls), p'. split_and!.
    + cbn [for_each_interleaved]. unfold yield, modify. by rewrite Hf.
    + by eapply run_app_Some.
    + by rewrite added_app, (added_work _ Hw).
  - destruct (interleave_reaches (default [] (head sched)) s p Hp)
      as (ls1 & p1 & Hf & Hr1 & Hw1).
    assert (ThreadPool.run (ls0 ++ ls1) (ThreadPool.new n timeout) = Some p1)
      as Hr01 by (by eapply run_app_Some).
    destruct (add_task_enabled n timeout (ls0 ++ ls1) p1
                (job (download_articles paper)) Hr01) as [p2 Ha].
    { rewrite added_app, (added_work _ Hw1), app_nil_r.
      destruct Hb as [Hb|Hb]; [by left|right]. simpl in Hb. lia. }
    destruct (IH (tail sched) (with_pool (Some p2) (with_pool (Some p1) s)) p2
                ((ls0 ++ ls1) ++ [ThreadPool.AddTask (job (download_articles paper))]))
      as (ls & p' & Hloop & Hr & Hadd).
    { done. }
    { eapply run_app_Some; [exact Hr01|]. by rewrite run_cons; simpl;
        unfold ThreadPool.step; rewrite Ha. }
    { rewrite !added_app, (added_work _ Hw1), app_nil_r.
      destruct Hb as [Hb|Hb]; [by left|right].
      rewrite length_app. simpl in *. lia. }
    exists ls, p'. split_and!.
    + cbn [for_each_interleaved]. unfold yield at 1.
      cbv [mbind M_bind modify]. rewrite Hf.
      rewrite (pool_add_task_returns _ (with_pool (Some p1) s) p1 p2 eq_refl Ha).
      exact Hloop.
    + done.
    + rewrite Hadd, !added_app, (added_work _ Hw1), app_nil_r.
      simpl. by rewrite <- app_assoc.
Qed.

(** [set_papers] under any schedule of the workers returns, and its pool
    is a state of [ThreadPool(k*N, timeout)] reached by a schedule that
    submits the [download_articles] of the sources, in list order. *)
Lemma set_papers_interleaved_reaches sched (paper_list : list Source) (k : Z) s :
  ∃ ls p,
    set_papers_interleaved sched paper_list k s =
      Returns () (with_pool (Some p) (with_papers paper_list s)) ∧
    ThreadPool.run ls
      (ThreadPool.new (k * Z.of_nat (length paper_list))
         (thread_timeout_seconds (config s))) = Some p ∧
    ThreadPool.added ls =
      (λ paper, job (download_articles paper)) <$> paper_list.
Proof.
  set (p0 := ThreadPool.new (k * Z.of_nat (length paper_list))
               (thread_timeout_seconds (config s)) : ThreadPool.t Task).
  destruct (loop_reaches (k * Z.of_nat (length paper_list))
              (thread_timeout_seconds (config s)) sched paper_list
              (with_pool (Some p0) (with_papers paper_list s)) p0 [])
    as (ls & p & Hloop & Hr & Hadd); [done|done| |].
  { simpl. destruct (decide (k ≤ 0)); [left; nia | right; nia]. }
  exists ls, p. split_and!; [exact Hloop|done|done].
Qed.

(** With an empty schedule [set_papers_interleaved] is [set_papers]. *)
Lemma set_papers_interleaved_quiet (paper_list : list Source) (k : Z) s :
  set_papers_interleaved [] paper_list k s = set_papers paper_list k s.
Proof.
  assert (∀ (l : list Source) s',
            for_each_interleaved [] l
              (λ paper, pool_add_task (download_articles paper)) s' =
            for_each l (λ paper, pool_add_task (download_articles paper)) s')
    as Hloop.
  { induction l as [|paper l IH]; intros s'; [done|].
    cbn [for_each_interleaved for_each]. unfold yield. simpl.
    cbv [mbind M_bind modify]. simpl.
    destruct (pool_add_task (download_articles paper) s'); [apply IH|done..]. }
  unfold set_papers_interleaved, set_papers.
  cbv [mbind M_bind modify gets]. apply Hloop.
Qed.

(** *** set_papers *)


(** Two runs of [set_papers] in which a worker moves during the call: in
    the first, worker 0 has taken the first job and is inside its call
    when the second is submitted; in the second, with a timeout of 0,
    the only worker has left its loop before the job is submitted, and
    the [join] that follows waits. *)
Example set_papers_worker_dequeues_during_loop :
  ∃ s1 p,
    set_papers_interleaved [[]; [(0%nat, Worker.Get false)]]
      [SourceObj 1; SourceObj 2] 1 (new None (mkConfiguration 5 10)) =
      Returns () s1 ∧
    pool s1 = Some p ∧
    ThreadPool.started p = [job (download_articles (SourceObj 1))] ∧
    ThreadPool.pending p = [job (download_articles (SourceObj 2))] ∧
    Queue.unfinished_tasks (ThreadPool.tasks p) = 2%nat.
Proof. eexists _, _. split; [vm_compute; reflexivity|]. by split_and!. Qed.

Example set_papers_worker_exits_before_put :
  ∃ s1 p,
    set_papers_interleaved [[(0%nat, Worker.Get true)]]
      [SourceObj 1] 1 (new None (mkConfiguration 0 10)) = Returns () s1 ∧
    pool s1 = Some p ∧
    ThreadPool.workers p =
      [Worker.goto (Worker.new 0) Worker.Stopped] ∧
    ThreadPool.pending p = [job (download_articles (SourceObj 1))] ∧
    join s1 = Blocks s1.
Proof. eexists _, _. split; [vm_compute; reflexivity|]. by split_and!. Qed.

(** X18.  From [set_papers] to the return of [join], under every schedule
    of the workers during [set_papers] and after it: if [join] returns,
    then every [download_articles] job was handed to a worker, in list
    order, the calls that have ended are exactly those jobs, one call per
    source, and [papers], [articles] and [pool] are cleared. *)
Theorem join_returns_after_every_download sched paper_list (k : Z) evs
    s s1 s2 s3 :
  set_papers_interleaved sched paper_list k s = Returns () s1 →
  works evs s1 = Some s2 →
  join s2 = Returns () s3 →
  ∃ p2,
    pool s2 = Some p2 ∧
    ThreadPool.started p2 =
      (λ paper, job (download_articles paper)) <$> paper_list ∧
    (ThreadPool.finished p2).*1 ≡ₚ
      (λ paper, job (download_articles paper)) <$> paper_list ∧
    papers s3 = [] ∧ articles s3 = PyList [] ∧ pool s3 = None.
Proof.
  intros Hset Hw Hj.
  destruct (set_papers_interleaved_reaches sched paper_list k s)
    as (ls & p & Hrun & Hr & Hadd).
  rewrite Hrun in Hset. injection Hset as <-.
  destruct (works_run evs (with_pool (Some p) (with_papers paper_list s))
              s2 p eq_refl Hw) as (p2 & Hr2 & ->).
  exists p2. split; [done|].
  erewrite join_with_pool in Hj by reflexivity.
  destruct (ThreadPool.wait_completion p2) eqn:Hwc; [|done].
  injection Hj as <-.
  assert (ThreadPool.run (ls ++ ThreadPool.works_labels evs)
            (ThreadPool.new (k * Z.of_nat (length paper_list))
               (thread_timeout_seconds (config s))) = Some p2) as Hall.
  { by eapply run_app_Some. }
  destruct (reachable_consistent _ _ _ _ Hall) as (Hc & _ & _ & Hsub).
  apply (wait_completion_iff p2 Hc) in Hwc as (Hq & Hh & _).
  destruct (drained_all_finished p2 Hc Hq Hh) as [Hs Hf].
  rewrite Hsub, added_app, (added_work _ (works_labels_work evs)),
    app_nil_r, Hadd in Hs, Hf.
  done.
Qed.

Lemma join_returns_after_every_download_witness :
  ∃ s1 s2 s3,
    set_papers_interleaved
      [[]; [(0, Worker.Get false)];
       [(0, Worker.Call Returned); (1, Worker.Get false)]]%nat
      [SourceObj 1; SourceObj 2; SourceObj 3] 1
      (new None (mkConfiguration 5 10)) = Returns () s1 ∧
    works [(0, Worker.TaskDone); (2, Worker.Get false);
           (1, Worker.Call (RaisedException (JobError "IOError")));
           (2, Worker.Call Returned); (2, Worker.TaskDone);
           (1, Worker.TaskDone)]%nat s1 = Some s2 ∧
    join s2 = Returns () s3 ∧
    ∃ p2,
      pool s2 = Some p2 ∧
      ThreadPool.started p2 =
        (λ paper, job (download_articles paper)) <$>
          [SourceObj 1; SourceObj 2; SourceObj 3] ∧
      (ThreadPool.finished p2).*1 ≡ₚ
        (λ paper, job (download_articles paper)) <$>
          [SourceObj 1; SourceObj 2; SourceObj 3] ∧
      papers s3 = [] ∧ articles s3 = PyList [] ∧ pool s3 = None.
Proof.
  eexists _, _, _. split; [vm_compute; reflexivity|].
  split; [vm_compute; reflexivity|]. split; [vm_compute; reflexivity|].
  eapply (join_returns_after_every_download
            [[]; [(0, Worker.Get false)];
             [(0, Worker.Call Returned); (1, Worker.Get false)]]%nat
            [SourceObj 1; SourceObj 2; SourceObj 3] 1
            [(0, Worker.TaskDone); (2, Worker.Get false);
             (1, Worker.Call (RaisedException (JobError "IOError")));
             (2, Worker.Call Returned); (2, Worker.TaskDone);
             (1, Worker.TaskDone)]%nat
            (new None (mkConfiguration 5 10))).
  - vm_compute. reflexivity.
  - vm_compute. reflexivity.
  - vm_compute. reflexivity.
Defined.

(** X11.  A batch can be completed from any state in which [set_papers]
    returns, whatever the workers did during the call, provided one worker
    is still alive there (it has neither left its loop nor died), its
    timeout is not negative and no job was lost with a worker that died:
    then there are worker steps (the workers that hold a job hand it back,
    the live worker works off the queue, each call returning or raising an
    exception as [raises] says) after which [join] returns with the batch
    cleared, every [download_articles] having been called once. *)
Theorem batch_can_complete sched (paper_list : list Source) (k : Z)
    (raises : Task → option exn) s s1 p i w :
  set_papers_interleaved sched paper_list k s = Returns () s1 →
  pool s1 = Some p →
  ThreadPool.workers p !! i = Some w →
  Worker.terminal w = false →
  0 ≤ Worker.timeout w →
  ThreadPool.lost p = [] →
  ∃ evs s2 p2,
    works evs s1 = Some s2 ∧
    pool s2 = Some p2 ∧
    ThreadPool.started p2 =
      (λ paper, job (download_articles paper)) <$> paper_list ∧
    (ThreadPool.finished p2).*1 ≡ₚ
      (λ paper, job (download_articles paper)) <$> paper_list ∧
    join s2 =
      Returns () {| papers := []; articles := PyList []; pool := None;
                    config := config s; stdout := stdout s |}.
Proof.
  intros Hset Hp Hw Hat Ht Hlost.
  destruct (set_papers_interleaved_reaches sched paper_list k s)
    as (ls & p0 & Hrun & Hr & Hadd).
  rewrite Hrun in Hset. injection Hset as <-.
  simpl in Hp. injection Hp as ->.
  destruct (reachable_consistent _ _ _ _ Hr) as (Hc & _).
  destruct (live_worker_finishes (λ j, swallowed (raises j)) p i w)
    as (evs & p2 & Hr2 & Hwc); try done.
  { intros j name. by destruct (raises j). }
  exists evs, (with_pool (Some p2) (with_pool (Some p) (with_papers paper_list s))),
    p2.
  assert (ThreadPool.run (ls ++ ThreadPool.works_labels evs)
            (ThreadPool.new (k * Z.of_nat (length paper_list))
               (thread_timeout_seconds (config s))) = Some p2) as Hall.
  { by eapply run_app_Some. }
  destruct (reachable_consistent _ _ _ _ Hall) as (Hc2 & _ & _ & Hsub).
  pose proof Hwc as Hwc'.
  apply (wait_completion_iff p2 Hc2) in Hwc' as (Hq & Hh & _).
  destruct (drained_all_finished p2 Hc2 Hq Hh) as [Hs Hf].
  rewrite Hsub, added_app, (added_work _ (works_labels_work evs)),
    app_nil_r, Hadd in Hs, Hf.
  split_and!; try done.
  - by eapply works_of_run.
  - erewrite join_with_pool by reflexivity. by rewrite Hwc.
Qed.

Lemma batch_can_complete_witness :
  ∃ s1 p,
    set_papers_interleaved [[]; [(0, Worker.Get false); (1, Worker.Get true)]]%nat
      [SourceObj 1; SourceObj 2] 1 (new None (mkConfiguration 0 10)) =
      Returns () s1 ∧
    pool s1 = Some p ∧
    ThreadPool.workers p =
      [Worker.goto (Worker.new 0)
         (Worker.Executing (job (download_articles (SourceObj 1))));
       Worker.goto (Worker.new 0) Worker.Stopped] ∧
    ThreadPool.lost p = [] ∧
    ∃ evs s2 p2,
      works evs s1 = Some s2 ∧
      pool s2 = Some p2 ∧
      ThreadPool.started p2 =
        (λ paper, job (download_articles paper)) <$>
          [SourceObj 1; SourceObj 2] ∧
      (ThreadPool.finished p2).*1 ≡ₚ
        (λ paper, job (download_articles paper)) <$>
          [SourceObj 1; SourceObj 2] ∧
      join s2 =
        Returns () {| papers := []; articles := PyList []; pool := None;
                      config := config (new None (mkConfiguration 0 10));
                      stdout := stdout (new None (mkConfiguration 0 10)) |}.
Proof.
  eexists _, _. split; [vm_compute; reflexivity|].
  split; [vm_compute; reflexivity|]. split; [vm_compute; reflexivity|].
  split; [vm_compute; reflexivity|].
  eapply (batch_can_complete
            [[]; [(0, Worker.Get false); (1, Worker.Get true)]]%nat
            [SourceObj 1; SourceObj 2] 1
            (λ j, match func j with
                  | download_articles (SourceObj 1) => Some (JobError "IOError")
                  | _ => None
                  end)
            (new None (mkConfiguration 0 10)) _ _ 0%nat).
  - vm_compute. reflexivity.
  - vm_compute. reflexivity.
  - vm_compute. reflexivity.
  - vm_compute. reflexivity.
  - simpl. lia.
  - vm_compute. reflexivity.
Defined.

(** *** set_articles, then join *)

Lemma join_handling_with_pool h s p :
  pool s = Some p → join_handling h s = join s.
Proof.
  intros Hp.
  cbv [join join_handling pool_wait_completion mbind M_bind mret M_ret gets
       modify raise block].
  by rewrite Hp.
Qed.

Lemma join_handling_without_pool h s :
  pool s = None →
  join_handling h s =
  match articles s with
  | PyNone =>
      Raises (default RuntimeError h)
        (with_stdout (stdout s ++ [misuse_message]) s)
  | _ => Raises AttributeError s
  end.
Proof.
  intros Hp.
  cbv [join_handling pool_wait_completion mbind M_bind mret M_ret gets
       modify raise block print].
  rewrite Hp. destruct (articles s); simpl; by rewrite ?Hp.
Qed.

(** X16.  [set_articles] fails for every argument, not only for lists: a
    list or [None] cannot be compared with the ceiling, and for a [bool] or
    an [int] the comparison gives a [bool], which has no [len].  The
    argument is stored all the same, [papers] and [pool] are as before.  A
    [join] after the failure acts on the pool of an earlier [set_papers] if
    there is one, and then also resets the stored articles; with no pool it
    raises.  When the argument was [None] it prints the misuse message and
    its bare [raise] re-raises the exception that is being handled where
    [join] is called ([h], the [TypeError] of [set_articles] inside its
    [except] block), or gives [RuntimeError] when none is; for any other
    argument it raises [AttributeError]. *)
Theorem failed_set_articles_then_join (v : pyval) (h : option exn) s :
  ∃ s1,
    set_articles v s = Raises TypeError s1 ∧
    articles s1 = v ∧ papers s1 = papers s ∧ pool s1 = pool s ∧
    join_handling h s1 =
    match pool s with
    | Some p =>
        if ThreadPool.wait_completion p
        then Returns () {| papers := []; articles := PyList []; pool := None;
                           config := config s; stdout := stdout s |}
        else Blocks s1
    | None =>
        match v with
        | PyNone =>
            Raises (default RuntimeError h)
              (with_stdout (stdout s ++ [misuse_message]) s1)
        | _ => Raises AttributeError s1
        end
    end.
Proof.
  exists (with_articles v s). split_and!; try done.
  - by destruct v.
  - destruct (pool s) as [p|] eqn:Hp.
    + rewrite (join_handling_with_pool h (with_articles v s) p Hp).
      by rewrite (join_with_pool (with_articles v s) p Hp).
    + by rewrite (join_handling_without_pool h (with_articles v s) Hp).
Qed.

(** [join] called from the handler of the [TypeError] of
    [set_articles(None)] re-raises that [TypeError]; called after the
    handler it raises [RuntimeError]. *)
Example join_in_except_block_reraises :
  ∃ s1,
    set_articles PyNone (new None (mkConfiguration 5 10)) =
      Raises TypeError s1 ∧
    join_handling (Some TypeError) s1 =
      Raises TypeError (with_stdout [misuse_message] s1) ∧
    join s1 = Raises RuntimeError (with_stdout [misuse_message] s1).
Proof. eexists. split; [vm_compute; reflexivity|]. by split. Qed.
End Interleaving.
